(** * Reordering commits through an interactive rebase

    A shallow embedding of [app/src/lib/git/reorder.ts] and the properties of
    the todo script it hands to the interactive rebase.

    The file has two layers.  [computeScript] is the scheduling part of
    [reorder] (the guards, the traversal of the log and the final flushes)
    with every [FSE.appendFile] of a pick line recorded as one more entry of
    a list.  [reorder] is the whole function over an explicit world: the
    files on disk, the error log, the console, the removals started and
    the state of the collaborators ([getCommits], [getTempFilePath],
    [rebaseInteractive] and the awaited calls of [fs-extra], all of which
    may reject), with [try]/[catch]/[finally] written out. *)

From stdpp Require Import gmap strings list.

(** ** Data *)

(** [CommitOneLine] of [models/commit]: a sha and the first line of the
    message. *)
Record CommitOneLine := { sha : string; summary : string }.

#[global] Instance CommitOneLine_eq_dec : EqDecision CommitOneLine.
Proof. solve_decision. Defined.

(** The three errors [reorder] throws itself, named after the situation. *)
Inductive SchedulerError :=
| EmptyMoveSet      (* [toMove.length === 0] *)
| EmptyLog          (* [commits.length === 0] *)
| AnchorNotFound.   (* [afterCommit] given and never met in the log *)

Definition error_message (e : SchedulerError) : string :=
  match e with
  | EmptyMoveSet => "[reorder] No commits provided to reorder."
  | EmptyLog =>
      "[reorder] Could not find commits in log for last retained commit ref."
  | AnchorNotFound =>
      "[reorder] The commit to squash onto was not in the log. Continuing would result in dropping the commits in the toMove array."
  end.

Inductive Result (E A : Type) :=
| Ok (a : A)
| Err (e : E).
Arguments Ok {E A} a.
Arguments Err {E A} e.

(** ** The traversal of the log *)

(** The locals of the loop. *)
Record Locals := {
  foundBaseCommitInLog : bool;
  toReplayBeforeBaseCommit : list CommitOneLine;
  toReplayAfterReorder : list CommitOneLine
}.

Definition start : Locals :=
  {| foundBaseCommitInLog := false;
     toReplayBeforeBaseCommit := [];
     toReplayAfterReorder := [] |}.

(** [afterCommit !== null && commit.sha === afterCommit.sha] *)
Definition isBaseCommit (afterCommit : option CommitOneLine)
    (commit : CommitOneLine) : bool :=
  match afterCommit with
  | Some a => bool_decide (sha commit = sha a)
  | None => false
  end.

(** One iteration of the loop body: the locals after it, and the commits
    whose pick line it appends to the todo file, in the order of the
    appends. *)
Definition visit (toMoveShas : gset string) (afterCommit : option CommitOneLine)
    (st : Locals) (commit : CommitOneLine) : Locals * list CommitOneLine :=
  if bool_decide (sha commit ∈ toMoveShas) then
    if foundBaseCommitInLog st then (st, [commit])
    else
      ({| foundBaseCommitInLog := foundBaseCommitInLog st;
          toReplayBeforeBaseCommit := toReplayBeforeBaseCommit st ++ [commit];
          toReplayAfterReorder := toReplayAfterReorder st |}, [])
  else if isBaseCommit afterCommit commit then
    (* [unshift], then every entry of the array is written; the array is
       not emptied afterwards *)
    let replay := commit :: toReplayBeforeBaseCommit st in
    ({| foundBaseCommitInLog := true;
        toReplayBeforeBaseCommit := replay;
        toReplayAfterReorder := toReplayAfterReorder st |}, replay)
  else if foundBaseCommitInLog st then
    ({| foundBaseCommitInLog := foundBaseCommitInLog st;
        toReplayBeforeBaseCommit := toReplayBeforeBaseCommit st;
        toReplayAfterReorder := toReplayAfterReorder st ++ [commit] |}, [])
  else (st, [commit]).

(** The loop over a log given oldest first. *)
Fixpoint traverse (toMoveShas : gset string)
    (afterCommit : option CommitOneLine) (st : Locals)
    (log : list CommitOneLine) : Locals * list CommitOneLine :=
  match log with
  | [] => (st, [])
  | commit :: rest =>
      let '(st1, picks) := visit toMoveShas afterCommit st commit in
      let '(st2, more) := traverse toMoveShas afterCommit st1 rest in
      (st2, picks ++ more)
  end.

(** The set [new Set(toMove.map(c => c.sha))]. *)
Definition shasOf (toMove : list CommitOneLine) : gset string :=
  list_to_set (sha <$> toMove).

(** The part of [reorder] that decides the content of the todo file: the
    two guards, the traversal and the flushes after it.  [commits] is the
    log as [getCommits] returns it, newest first;
    [for (let i = commits.length - 1; i >= 0; i--)] walks it from its last
    entry to its first. *)
Definition computeScript (commits toMove : list CommitOneLine)
    (afterCommit : option CommitOneLine)
    : Result SchedulerError (list CommitOneLine) :=
  if bool_decide (length toMove = 0) then Err EmptyMoveSet
  else
    let toMoveShas := shasOf toMove in
    if bool_decide (length commits = 0) then Err EmptyLog
    else
      let '(st, picks) :=
        traverse toMoveShas afterCommit start (reverse commits) in
      (* the loop over [toReplayAfterReorder], which its guard
         [length > 0] leaves as it is *)
      let written := picks ++ toReplayAfterReorder st in
      match afterCommit with
      | None => Ok (written ++ toReplayBeforeBaseCommit st)
      | Some _ =>
          if foundBaseCommitInLog st then Ok written else Err AnchorNotFound
      end.

(** ** The world around [reorder] *)

(** What the file leaves open: the types of the collaborators' values and
    the state they act on (the repository on disk, the git processes). *)
Class Platform := {
  Repository : Type;
  ProgressCallback : Type;
  MultiCommitOperationKind : Type;
  Squash : MultiCommitOperationKind;
  RebaseResult : Type;
  RebaseResult_Error : RebaseResult;
  Outside : Type
}.

(** What can be thrown inside the [try] block. *)
Inductive Exn :=
| Thrown (e : SchedulerError)      (* [throw new Error(...)] of [reorder] *)
| Rejected (reason : string).      (* a promise of a collaborator or of
                                      [fs-extra] rejected *)

Record World `{Platform} := {
  files : gmap string string;   (* path to content *)
  errorLog : list Exn;          (* [log.error], oldest first *)
  console : list string;        (* [console.log], oldest first *)
  removals : list string;       (* paths handed to [FSE.remove] in calls
                                   that nobody awaits, oldest first *)
  outside : Outside
}.

Definition M `{Platform} (A : Type) : Type := World → Result Exn A * World.

Definition ret `{Platform} {A} (a : A) : M A := λ w, (Ok a, w).

Definition bind `{Platform} {A B} (m : M A) (k : A → M B) : M B :=
  λ w, match m w with
       | (Ok a, w') => k a w'
       | (Err e, w') => (Err e, w')
       end.

Definition throw `{Platform} {A} (e : SchedulerError) : M A :=
  λ w, (Err (Thrown e), w).

Notation "'let!' x ':=' m 'in' k" := (bind m (λ x, k))
  (at level 10, x pattern, m at level 100, k at level 200,
   format "'[v' 'let!'  x  ':='  m  'in' '/' k ']'").
Notation "m ';;;' k" := (bind m (λ _, k))
  (at level 100, k at level 200, right associativity).

(** The collaborators: the log provider, the temporary path provider, the
    rebase engine and the two awaited calls of [fs-extra], each free to act
    on the whole world and to reject. *)
Class Collaborators `{Platform} := {
  revRange : string → string → string;
  getCommits : Repository → option string → M (list CommitOneLine);
  getTempFilePath : string → M string;
  rebaseInteractive :
    Repository → string → option string → MultiCommitOperationKind →
    option string → option ProgressCallback → list CommitOneLine →
    M RebaseResult;
  appendFile : string → string → M unit;   (* [FSE.appendFile] *)
  readFile : string → M string             (* [FSE.readFile], as utf-8 *)
}.

(** [`pick ${commit.sha} ${commit.summary}\n`] *)
Definition pick_line (commit : CommitOneLine) : string :=
  "pick " +:+ sha commit +:+ " " +:+ summary commit +:+
  String (Ascii.ascii_of_nat 10) "".

(** The world after an append that went through: the file, made if it was
    missing, holds its former text followed by the data. *)
Definition write `{Platform} (path data : string) (w : World) : World :=
  {| files := <[path := default "" (files w !! path) +:+ data]> (files w);
     errorLog := errorLog w; console := console w;
     removals := removals w; outside := outside w |}.

(** A disk on which every append to [path] goes through. *)
Definition TakesAppends `{Collaborators} (path : string) : Prop :=
  ∀ data w, appendFile path data w = (Ok (), write path data w).

Definition printed `{Platform} (text : string) (w : World) : World :=
  {| files := files w; errorLog := errorLog w;
     console := console w ++ [text];
     removals := removals w; outside := outside w |}.

Definition console_log `{Platform} (text : string) : M unit :=
  λ w, (Ok (), printed text w).

Definition log_error `{Platform} (e : Exn) (w : World) : World :=
  {| files := files w; errorLog := errorLog w ++ [e];
     console := console w;
     removals := removals w; outside := outside w |}.

(** [FSE.remove(path)] as the [finally] block calls it: the removal is
    started, its promise is neither awaited nor caught, and the disk is as
    it was when [reorder] goes on. *)
Definition startRemove `{Platform} (path : string) (w : World) : World :=
  {| files := files w; errorLog := errorLog w; console := console w;
     removals := removals w ++ [path]; outside := outside w |}.

(** [for (let j = 0; j < xs.length; j++) await FSE.appendFile(todoPath, ...)] *)
Fixpoint appendPicks `{Collaborators} (todoPath : string)
    (xs : list CommitOneLine) : M unit :=
  match xs with
  | [] => ret ()
  | x :: rest =>
      appendFile todoPath (pick_line x) ;;; appendPicks todoPath rest
  end.

(** The loop body, lines 71-118. *)
Definition visitM `{Collaborators} (todoPath : string)
    (toMoveShas : gset string) (afterCommit : option CommitOneLine)
    (st : Locals) (commit : CommitOneLine) : M Locals :=
  if bool_decide (sha commit ∈ toMoveShas) then
    if foundBaseCommitInLog st then
      appendFile todoPath (pick_line commit) ;;; ret st
    else
      ret {| foundBaseCommitInLog := foundBaseCommitInLog st;
             toReplayBeforeBaseCommit :=
               toReplayBeforeBaseCommit st ++ [commit];
             toReplayAfterReorder := toReplayAfterReorder st |}
  else if isBaseCommit afterCommit commit then
    let replay := commit :: toReplayBeforeBaseCommit st in
    appendPicks todoPath replay ;;;
    ret {| foundBaseCommitInLog := true;
           toReplayBeforeBaseCommit := replay;
           toReplayAfterReorder := toReplayAfterReorder st |}
  else if foundBaseCommitInLog st then
    ret {| foundBaseCommitInLog := foundBaseCommitInLog st;
           toReplayBeforeBaseCommit := toReplayBeforeBaseCommit st;
           toReplayAfterReorder := toReplayAfterReorder st ++ [commit] |}
  else
    appendFile todoPath (pick_line commit) ;;; ret st.

Fixpoint traverseM `{Collaborators} (todoPath : string)
    (toMoveShas : gset string) (afterCommit : option CommitOneLine)
    (st : Locals) (log : list CommitOneLine) : M Locals :=
  match log with
  | [] => ret st
  | commit :: rest =>
      let! st1 := visitM todoPath toMoveShas afterCommit st commit in
      traverseM todoPath toMoveShas afterCommit st1 rest
  end.

(** The range [reorder] asks the log provider for:
    [lastRetainedCommitRef === null ? undefined
       : revRange(lastRetainedCommitRef, 'HEAD')]. *)
Definition logRange `{Collaborators} (lastRetainedCommitRef : option string)
    : option string :=
  match lastRetainedCommitRef with
  | None => None
  | Some ref => Some (revRange ref "HEAD")
  end.

(** Lines 45-64 of the [try] block: up to the assignment of [todoPath]. *)
Definition acquire `{Collaborators} (repository : Repository)
    (toMove : list CommitOneLine) (lastRetainedCommitRef : option string)
    : M (gset string * list CommitOneLine * string) :=
  if bool_decide (length toMove = 0) then throw EmptyMoveSet
  else
    let toMoveShas := shasOf toMove in
    let! commits :=
      getCommits repository (logRange lastRetainedCommitRef) in
    if bool_decide (length commits = 0) then throw EmptyLog
    else
      let! todoPath := getTempFilePath "reorderTodo" in
      ret (toMoveShas, commits, todoPath).

(** Lines 65-141 of the [try] block: the todo file is written, or the block
    is left by a rejected append or by the missing base commit. *)
Definition writeTodo `{Collaborators} (afterCommit : option CommitOneLine)
    (toMoveShas : gset string) (commits : list CommitOneLine)
    (todoPath : string) : M unit :=
  let! st := traverseM todoPath toMoveShas afterCommit start
               (reverse commits) in
  (if bool_decide (0 < length (toReplayAfterReorder st))
   then appendPicks todoPath (toReplayAfterReorder st)
   else ret ()) ;;;
  match afterCommit with
  | None => appendPicks todoPath (toReplayBeforeBaseCommit st)
  | Some _ =>
      if foundBaseCommitInLog st then ret () else throw AnchorNotFound
  end.

(** Lines 65-153 of the [try] block: [todoPath] is assigned. *)
Definition replay `{Collaborators} (repository : Repository)
    (afterCommit : option CommitOneLine)
    (lastRetainedCommitRef : option string)
    (progressCallback : option ProgressCallback)
    (toMoveShas : gset string) (commits : list CommitOneLine)
    (todoPath : string) : M RebaseResult :=
  writeTodo afterCommit toMoveShas commits todoPath ;;;
  let! text := readFile todoPath in
  console_log text ;;;
  rebaseInteractive repository todoPath lastRetainedCommitRef Squash None
    progressCallback commits.

(** The [try] block with the local [todoPath] as it stands when the block
    is left. *)
Definition tryBlock `{Collaborators} (repository : Repository)
    (toMove : list CommitOneLine) (afterCommit : option CommitOneLine)
    (lastRetainedCommitRef : option string)
    (progressCallback : option ProgressCallback) (w : World)
    : option string * Result Exn RebaseResult * World :=
  match acquire repository toMove lastRetainedCommitRef w with
  | (Err e, w1) => (None, Err e, w1)
  | (Ok (toMoveShas, commits, todoPath), w1) =>
      let '(r, w2) :=
        replay repository afterCommit lastRetainedCommitRef progressCallback
          toMoveShas commits todoPath w1 in
      (Some todoPath, r, w2)
  end.

(** [reorder]: [try], then [catch] (log the error, answer
    [RebaseResult.Error]), then [finally] (call [FSE.remove] on the todo
    path when it was assigned, without awaiting it), and the answer. *)
Definition reorder `{Collaborators} (repository : Repository)
    (toMove : list CommitOneLine) (afterCommit : option CommitOneLine)
    (lastRetainedCommitRef : option string)
    (progressCallback : option ProgressCallback) (w : World)
    : RebaseResult * World :=
  let '(todoPath, r, w1) :=
    tryBlock repository toMove afterCommit lastRetainedCommitRef
      progressCallback w in
  let '(result, w2) :=
    match r with
    | Ok result => (result, w1)
    | Err e => (RebaseResult_Error, log_error e w1)
    end in
  (result,
   match todoPath with
   | Some path => startRemove path w2
   | None => w2
   end).

(** ** Reading the log through the move set and the base commit *)

(** The commits to move, the others, and the iterations that take the
    base-commit branch of the loop. *)
Definition moved (toMoveShas : gset string) (commit : CommitOneLine) : Prop :=
  sha commit ∈ toMoveShas.

Definition kept (toMoveShas : gset string) (commit : CommitOneLine) : Prop :=
  sha commit ∉ toMoveShas.

Definition meetsBase (toMoveShas : gset string)
    (afterCommit : option CommitOneLine) (commit : CommitOneLine) : Prop :=
  (sha commit ∉ toMoveShas) ∧ isBaseCommit afterCommit commit = true.

(** Neither moved nor the base commit. *)
Definition bystander (toMoveShas : gset string)
    (afterCommit : option CommitOneLine) (commit : CommitOneLine) : Prop :=
  (sha commit ∉ toMoveShas) ∧ isBaseCommit afterCommit commit = false.

#[global] Instance moved_dec s c : Decision (moved s c).
Proof. unfold moved. apply _. Defined.

#[global] Instance kept_dec s c : Decision (kept s c).
Proof. unfold kept. apply _. Defined.

#[global] Instance meetsBase_dec s a c : Decision (meetsBase s a c).
Proof. unfold meetsBase. apply _. Defined.

#[global] Instance bystander_dec s a c : Decision (bystander s a c).
Proof. unfold bystander. apply _. Defined.

(** The text of a todo file holding one pick line per commit. *)
Definition render (picks : list CommitOneLine) : string :=
  foldr (λ commit text, pick_line commit +:+ text) "" picks.

(** The world after one [FSE.appendFile] of a pick line per commit. *)
Definition writes `{Platform} (todoPath : string)
    (picks : list CommitOneLine) (w : World) : World :=
  foldl (λ w commit, write todoPath (pick_line commit) w) w picks.

(** The world in which the todo file holds the given text. *)
Definition holding `{Platform} (todoPath text : string) (w : World) : World :=
  {| files := <[todoPath := text]> (files w);
     errorLog := errorLog w; console := console w;
     removals := removals w; outside := outside w |}.

(** ** A small platform to run the model on *)

Module Scenarios.

Definition A := {| sha := "a1"; summary := "first" |}.
Definition B := {| sha := "b2"; summary := "second" |}.
Definition C := {| sha := "c3"; summary := "third" |}.
Definition D := {| sha := "d4"; summary := "fourth" |}.
Definition E := {| sha := "e5"; summary := "fifth" |}.
Definition Z := {| sha := "z9"; summary := "elsewhere" |}.

(** The log as [getCommits] returns it: newest first. *)
Definition history := [E; D; C; B; A].

(** Squashing [A] and [E] onto [C], and moving [B] to the end. *)
Definition ontoC := [E; A].
Definition ontoC_script := [B; C; A; E; D].
Definition toEnd := [B].
Definition toEnd_script := [A; C; D; E; B].

Inductive Verdict := Completed | Conflicts | Failed.

(** The state outside: the log the repository answers with, and the todo
    texts the engine has read. *)
Record Desk := { deskLog : list CommitOneLine; deskRead : list string }.

#[local] Instance platform : Platform :=
  {| Repository := unit;
     ProgressCallback := unit;
     MultiCommitOperationKind := unit;
     Squash := ();
     RebaseResult := Verdict;
     RebaseResult_Error := Failed;
     Outside := Desk |}.

(** A log provider that answers with the log of the desk, a disk that
    takes every append and reads what a file holds, and an engine that
    reads the todo file and completes, or rejects when there is no such
    file. *)
#[local] Instance desk : Collaborators :=
  {| revRange := λ from to, from +:+ ".." +:+ to;
     getCommits := λ _ _ w, (Ok (deskLog (outside w)), w);
     getTempFilePath := λ name w, (Ok ("/tmp/desktop-1/" +:+ name), w);
     rebaseInteractive := λ _ path _ _ _ _ _ w,
       match files w !! path with
       | Some text =>
           (Ok Completed,
            {| files := files w; errorLog := errorLog w;
               console := console w; removals := removals w;
               outside := {| deskLog := deskLog (outside w);
                             deskRead := deskRead (outside w) ++ [text] |} |})
       | None => (Err (Rejected "missing todo"), w)
       end;
     appendFile := λ path data w, (Ok (), write path data w);
     readFile := λ path w,
       match files w !! path with
       | Some text => (Ok text, w)
       | None => (Err (Rejected "ENOENT"), w)
       end |}.

Definition worldWith (disk : gmap string string) (errors : list Exn)
    (lines started : list string) (log : list CommitOneLine)
    (read : list string) : World :=
  {| files := disk; errorLog := errors; console := lines;
     removals := started;
     outside := {| deskLog := log; deskRead := read |} |}.

(** A world in which no removal has been started. *)
Definition worldOf (disk : gmap string string) (errors : list Exn)
    (lines : list string) (log : list CommitOneLine) (read : list string)
    : World :=
  worldWith disk errors lines [] log read.

Definition world (log : list CommitOneLine) : World := worldOf ∅ [] [] log [].

End Scenarios.

(** Collaborators that fail, over the same platform: a log provider that
    rejects, a path provider that rejects, an engine that rejects after
    reading the todo file, and a disk that takes no append. *)
Module Outages.

Definition offline : @Collaborators Scenarios.platform :=
  {| revRange := @revRange _ Scenarios.desk;
     getCommits := λ _ _ w, (Err (Rejected "git log failed"), w);
     getTempFilePath := @getTempFilePath _ Scenarios.desk;
     rebaseInteractive := @rebaseInteractive _ Scenarios.desk;
     appendFile := @appendFile _ Scenarios.desk;
     readFile := @readFile _ Scenarios.desk |}.

Definition noTemp : @Collaborators Scenarios.platform :=
  {| revRange := @revRange _ Scenarios.desk;
     getCommits := @getCommits _ Scenarios.desk;
     getTempFilePath := λ _ w, (Err (Rejected "mkdtemp failed"), w);
     rebaseInteractive := @rebaseInteractive _ Scenarios.desk;
     appendFile := @appendFile _ Scenarios.desk;
     readFile := @readFile _ Scenarios.desk |}.

Definition brokenEngine : @Collaborators Scenarios.platform :=
  {| revRange := @revRange _ Scenarios.desk;
     getCommits := @getCommits _ Scenarios.desk;
     getTempFilePath := @getTempFilePath _ Scenarios.desk;
     rebaseInteractive := λ _ path _ _ _ _ _ w,
       (Err (Rejected "git rebase failed"),
        Scenarios.worldWith (files w) (errorLog w) (console w) (removals w)
          (Scenarios.deskLog (outside w))
          (Scenarios.deskRead (outside w) ++
           [default "" (files w !! path)]));
     appendFile := @appendFile _ Scenarios.desk;
     readFile := @readFile _ Scenarios.desk |}.

Definition fullDisk : @Collaborators Scenarios.platform :=
  {| revRange := @revRange _ Scenarios.desk;
     getCommits := @getCommits _ Scenarios.desk;
     getTempFilePath := @getTempFilePath _ Scenarios.desk;
     rebaseInteractive := @rebaseInteractive _ Scenarios.desk;
     appendFile := λ _ _ w, (Err (Rejected "ENOSPC"), w);
     readFile := @readFile _ Scenarios.desk |}.

End Outages.

(** * Properties *)

(** Lists built with [++] and [::], brought to one shape. *)
Ltac flatten :=
  repeat (rewrite <- app_assoc || rewrite <- app_comm_cons
          || rewrite app_nil_r || rewrite app_nil_l).

(** ** The traversal, phase by phase *)

Section Traversal.
Context (toMoveShas : gset string) (afterCommit : option CommitOneLine).

#[local] Abbreviation look := (visit toMoveShas afterCommit).
#[local] Abbreviation walk := (traverse toMoveShas afterCommit).
#[local] Abbreviation moved := (moved toMoveShas).
#[local] Abbreviation kept := (kept toMoveShas).
#[local] Abbreviation meetsBase := (meetsBase toMoveShas afterCommit).
#[local] Abbreviation bystander := (bystander toMoveShas afterCommit).

Lemma traverse_app st l1 l2 :
  walk st (l1 ++ l2) =
    let '(st1, p1) := walk st l1 in
    let '(st2, p2) := walk st1 l2 in
    (st2, p1 ++ p2).
Proof.
  revert st. induction l1 as [|c l1 IH]; intros st; simpl.
  - by destruct (walk st l2).
  - destruct (look st c) as [st1 picks]. rewrite IH.
    destruct (walk st1 l1) as [st2 p1].
    destruct (walk st2 l2) as [st3 p2].
    by rewrite (assoc_L (++)).
Qed.

(** Before the base commit is met: moved commits are held back, the others
    are written at once. *)
Lemma traverse_before l st :
  foundBaseCommitInLog st = false →
  Forall (λ c, ¬ meetsBase c) l →
  walk st l =
    ({| foundBaseCommitInLog := false;
        toReplayBeforeBaseCommit :=
          toReplayBeforeBaseCommit st ++ filter moved l;
        toReplayAfterReorder := toReplayAfterReorder st |},
     filter kept l).
Proof.
  revert st. induction l as [|c l IH]; intros [f b a] Hf Hl; simpl in *.
  - subst f. rewrite !filter_nil. by rewrite (right_id_L [] (++)).
  - subst f. apply Forall_cons in Hl as [Hc Hl]. unfold visit.
    case_bool_decide as Hm; simpl.
    + rewrite IH; [|done|done]. simpl.
      rewrite (filter_cons_True moved); [|done].
      rewrite (filter_cons_False kept); [|by intros Hk; apply Hk].
      by rewrite <- (assoc_L (++)).
    + destruct (isBaseCommit afterCommit c) eqn:Hb.
      { exfalso. apply Hc. by split. }
      rewrite IH; [|done|done]. simpl.
      rewrite (filter_cons_False moved); [|done].
      by rewrite (filter_cons_True kept).
Qed.

(** After the base commit is met: moved commits are written at once, the
    others are held back. *)
Lemma traverse_after l st :
  foundBaseCommitInLog st = true →
  Forall (λ c, ¬ meetsBase c) l →
  walk st l =
    ({| foundBaseCommitInLog := true;
        toReplayBeforeBaseCommit := toReplayBeforeBaseCommit st;
        toReplayAfterReorder :=
          toReplayAfterReorder st ++ filter kept l |},
     filter moved l).
Proof.
  revert st. induction l as [|c l IH]; intros [f b a] Hf Hl; simpl in *.
  - subst f. rewrite !filter_nil. by rewrite (right_id_L [] (++)).
  - subst f. apply Forall_cons in Hl as [Hc Hl]. unfold visit.
    case_bool_decide as Hm; simpl.
    + rewrite IH; [|done|done]. simpl.
      rewrite (filter_cons_True moved); [|done].
      rewrite (filter_cons_False kept); [done|]. by intros Hk; apply Hk.
    + destruct (isBaseCommit afterCommit c) eqn:Hb.
      { exfalso. apply Hc. by split. }
      rewrite IH; [|done|done]. simpl.
      rewrite (filter_cons_False moved); [|done].
      rewrite (filter_cons_True kept); [|done].
      by rewrite <- (assoc_L (++)).
Qed.

Lemma visit_base st c :
  meetsBase c →
  look st c =
    ({| foundBaseCommitInLog := true;
        toReplayBeforeBaseCommit := c :: toReplayBeforeBaseCommit st;
        toReplayAfterReorder := toReplayAfterReorder st |},
     c :: toReplayBeforeBaseCommit st).
Proof.
  intros [Hk Hb]. unfold visit.
  rewrite bool_decide_eq_false_2; [|done]. by rewrite Hb.
Qed.

(** Either no iteration takes the base-commit branch, or there is a first
    one that does. *)
Lemma first_meeting (l : list CommitOneLine) :
  Forall (λ c, ¬ meetsBase c) l ∨
  ∃ l1 c l2, l = l1 ++ c :: l2 ∧ Forall (λ c, ¬ meetsBase c) l1 ∧ meetsBase c.
Proof.
  induction l as [|x l IH].
  - left. constructor.
  - destruct (decide (meetsBase x)) as [Hx|Hx].
    + right. exists [], x, l. split; [done|]. split; [constructor|done].
    + destruct IH as [IH|(l1 & c & l2 & -> & H1 & Hc)].
      * left. by constructor.
      * right. exists (x :: l1), c, l2.
        split; [done|]. split; [by constructor|done].
Qed.

(** Once the base commit is met, the commits held back for the end are
    exactly the bystanders, whatever else the log holds, and no bystander
    is written during the traversal. *)
Lemma traverse_met l st :
  foundBaseCommitInLog st = true →
  Forall (λ c, ¬ bystander c) (toReplayBeforeBaseCommit st) →
  foundBaseCommitInLog (walk st l).1 = true ∧
  Forall (λ c, ¬ bystander c) (walk st l).2 ∧
  toReplayAfterReorder (walk st l).1 =
    toReplayAfterReorder st ++ filter bystander l.
Proof.
  revert st. induction l as [|c l IH]; intros [f b a] Hf Hb; simpl in *.
  - rewrite filter_nil, (right_id_L [] (++)). by repeat split.
  - subst f. unfold visit. simpl.
    case_bool_decide as Hm; simpl.
    + destruct (IH {| foundBaseCommitInLog := true;
                      toReplayBeforeBaseCommit := b;
                      toReplayAfterReorder := a |}) as (H1 & H2 & H3);
        [done|done|].
      destruct (walk _ l) as [st2 more]. simpl in *.
      rewrite filter_cons_False; [|by intros [Hk _]].
      split; [done|]. split; [|done].
      constructor; [by intros [Hk _]|done].
    + destruct (isBaseCommit afterCommit c) eqn:Hc.
      * assert (¬ bystander c) as Hn by (intros [_ Hx]; congruence).
        destruct (IH {| foundBaseCommitInLog := true;
                        toReplayBeforeBaseCommit := c :: b;
                        toReplayAfterReorder := a |}) as (H1 & H2 & H3);
          [done|by constructor|].
        destruct (walk _ l) as [st2 more]. simpl in *.
        rewrite filter_cons_False; [|done].
        split; [done|]. split; [|done].
        constructor; [done|]. by apply Forall_app.
      * destruct (IH {| foundBaseCommitInLog := true;
                        toReplayBeforeBaseCommit := b;
                        toReplayAfterReorder := a ++ [c] |}) as (H1 & H2 & H3);
          [done|done|].
        destruct (walk _ l) as [st2 more]. simpl in *.
        rewrite filter_cons_True; [|by split].
        split; [done|]. split; [done|].
        by rewrite H3, <- (assoc_L (++)).
Qed.

(** The traversal of a log from its start through the first iteration
    that meets the base commit: what is written up to there, and what the
    rest of the traversal does from the locals of that iteration. *)
Lemma traverse_from_base l1 c l2 :
  Forall (λ c, ¬ meetsBase c) l1 →
  meetsBase c →
  let rest :=
    walk {| foundBaseCommitInLog := true;
            toReplayBeforeBaseCommit := c :: filter moved l1;
            toReplayAfterReorder := [] |} l2 in
  walk start (l1 ++ c :: l2) =
    (rest.1, filter kept l1 ++ (c :: filter moved l1) ++ rest.2) ∧
  foundBaseCommitInLog rest.1 = true ∧
  Forall (λ c, ¬ bystander c) rest.2 ∧
  toReplayAfterReorder rest.1 = filter bystander l2.
Proof.
  intros H1 Hc rest. split.
  - rewrite traverse_app, (traverse_before l1 start); [|done|done]. simpl.
    rewrite visit_base; [|done]. simpl. subst rest.
    by destruct (walk _ l2) as [st2 more].
  - apply (traverse_met l2); [done|]. simpl.
    constructor; [intros [_ Hx]; destruct Hc; congruence|].
    apply Forall_forall. intros x [Hx _]%list_elem_of_filter [Hk _].
    by apply Hk.
Qed.

(** Whatever is written or held back was in the log or already held
    back. *)
Lemma traverse_members l st x :
  (x ∈ (walk st l).2 ∨
   x ∈ toReplayBeforeBaseCommit (walk st l).1 ∨
   x ∈ toReplayAfterReorder (walk st l).1) →
  x ∈ l ∨ x ∈ toReplayBeforeBaseCommit st ∨ x ∈ toReplayAfterReorder st.
Proof.
  revert st. induction l as [|c l IH]; intros st; simpl.
  - rewrite elem_of_nil. tauto.
  - specialize (IH (look st c).1).
    assert (x ∈ (look st c).2 ∨
            x ∈ toReplayBeforeBaseCommit (look st c).1 ∨
            x ∈ toReplayAfterReorder (look st c).1 →
            x = c ∨ x ∈ toReplayBeforeBaseCommit st ∨
            x ∈ toReplayAfterReorder st) as Hv.
    { unfold visit.
      repeat (case_bool_decide || case_match); simpl;
        rewrite ?elem_of_app, ?elem_of_cons, ?elem_of_nil; tauto. }
    destruct (look st c) as [st1 picks]. simpl in *.
    destruct (walk st1 l) as [st2 more]. simpl in *.
    rewrite elem_of_app, elem_of_cons. tauto.
Qed.

(** The traversal looks at the move set only through the shas of the
    log. *)
Lemma traverse_ext (otherShas : gset string) l st :
  (∀ c, c ∈ l → sha c ∈ toMoveShas ↔ sha c ∈ otherShas) →
  walk st l = traverse otherShas afterCommit st l.
Proof.
  revert st. induction l as [|c l IH]; intros st Hl; simpl; [done|].
  assert (look st c = visit otherShas afterCommit st c) as ->.
  { unfold visit. specialize (Hl c (list_elem_of_here _ _)).
    by rewrite (bool_decide_ext _ _ Hl). }
  destruct (visit otherShas afterCommit st c) as [st1 picks].
  rewrite IH; [done|]. intros x Hx. apply Hl. by apply elem_of_cons; right.
Qed.

(** Moved and kept commits split a list. *)
Lemma kept_moved_Permutation (l : list CommitOneLine) :
  filter kept l ++ filter moved l ≡ₚ l.
Proof.
  induction l as [|c l IH]; [done|].
  destruct (decide (moved c)) as [Hm|Hm].
  - rewrite (filter_cons_True moved), (filter_cons_False kept);
      [|by intros Hk; apply Hk|done].
    by rewrite <- Permutation_middle, IH.
  - rewrite (filter_cons_False moved), (filter_cons_True kept); [|done|done].
    simpl. by rewrite IH.
Qed.

End Traversal.

(** ** Filters *)

Lemma filter_none {A} (P : A → Prop) `{!∀ x, Decision (P x)} (l : list A) :
  Forall (λ x, ¬ P x) l → filter P l = [].
Proof.
  induction 1 as [|x l Hx _ IH]; [done|].
  by rewrite filter_cons_False.
Qed.

Lemma list_filter_iff_in {A} (P Q : A → Prop)
    `{!∀ x, Decision (P x), !∀ x, Decision (Q x)} (l : list A) :
  (∀ x, x ∈ l → P x ↔ Q x) → filter P l = filter Q l.
Proof.
  induction l as [|x l IH]; intros Hl; [done|].
  rewrite !filter_cons.
  rewrite IH; [|by intros y Hy; apply Hl; right].
  apply decide_ext, Hl. left.
Qed.

(** ** The script, case by case *)

Lemma computeScript_guarded commits toMove afterCommit :
  toMove ≠ [] → commits ≠ [] →
  computeScript commits toMove afterCommit =
    let '(st, picks) :=
      traverse (shasOf toMove) afterCommit start (reverse commits) in
    match afterCommit with
    | None =>
        Ok ((picks ++ toReplayAfterReorder st) ++ toReplayBeforeBaseCommit st)
    | Some _ =>
        if foundBaseCommitInLog st then Ok (picks ++ toReplayAfterReorder st)
        else Err AnchorNotFound
    end.
Proof.
  intros Hm Hc. unfold computeScript.
  rewrite bool_decide_eq_false_2; [|by destruct toMove].
  rewrite bool_decide_eq_false_2; [|by destruct commits].
  done.
Qed.

Lemma computeScript_Ok_inv commits toMove afterCommit script :
  computeScript commits toMove afterCommit = Ok script →
  toMove ≠ [] ∧ commits ≠ [].
Proof.
  unfold computeScript. intros H.
  case_bool_decide as Hm; [done|].
  case_bool_decide as Hc; [done|].
  split; intros ->; simpl in *; lia.
Qed.

(** Without a base commit nothing is ever met. *)
Lemma never_meets_None toMoveShas (l : list CommitOneLine) :
  Forall (λ c, ¬ meetsBase toMoveShas None c) l.
Proof. apply Forall_forall. by intros c _ [_ ?]. Qed.

(** A base commit that is itself to be moved is never met. *)
Lemma never_meets_moved toMoveShas a (l : list CommitOneLine) :
  sha a ∈ toMoveShas →
  Forall (λ c, ¬ meetsBase toMoveShas (Some a) c) l.
Proof.
  intros Ha. apply Forall_forall. intros c _ [Hk Hb]. simpl in Hb.
  apply bool_decide_eq_true_1 in Hb. apply Hk. by rewrite Hb.
Qed.

(** A base commit whose sha is not in the log is never met. *)
Lemma never_meets_absent toMoveShas a (l : list CommitOneLine) :
  sha a ∉ sha <$> l →
  Forall (λ c, ¬ meetsBase toMoveShas (Some a) c) l.
Proof.
  intros Ha. apply Forall_forall. intros c Hc [Hk Hb]. simpl in Hb.
  apply bool_decide_eq_true_1 in Hb. apply Ha. rewrite <- Hb.
  by apply list_elem_of_fmap_2.
Qed.

(** In a log without a repeated sha the base commit is met at most once. *)
Lemma never_meets_again toMoveShas a (l1 l2 : list CommitOneLine) c :
  NoDup (sha <$> l1 ++ c :: l2) →
  meetsBase toMoveShas (Some a) c →
  Forall (λ c, ¬ meetsBase toMoveShas (Some a) c) l2.
Proof.
  intros Hnd [_ Hc]. simpl in Hc. apply bool_decide_eq_true_1 in Hc.
  rewrite fmap_app, fmap_cons in Hnd.
  apply NoDup_app in Hnd as (_ & _ & Hnd). apply NoDup_cons in Hnd as [Hnd _].
  apply Forall_forall. intros x Hx [_ Hb]. simpl in Hb.
  apply bool_decide_eq_true_1 in Hb. apply Hnd. rewrite Hc, <- Hb.
  by apply list_elem_of_fmap_2.
Qed.

(** Moving to the end of the history. *)
Lemma computeScript_end commits toMove :
  toMove ≠ [] → commits ≠ [] →
  computeScript commits toMove None =
    Ok (filter (kept (shasOf toMove)) (reverse commits) ++
        filter (moved (shasOf toMove)) (reverse commits)).
Proof.
  intros Hm Hc. rewrite computeScript_guarded; [|done|done].
  rewrite traverse_before; [|done|apply never_meets_None]. simpl.
  by rewrite (right_id_L [] (++)).
Qed.

Lemma computeScript_end_inv commits toMove script :
  computeScript commits toMove None = Ok script →
  script =
    filter (kept (shasOf toMove)) (reverse commits) ++
    filter (moved (shasOf toMove)) (reverse commits).
Proof.
  intros Hok. destruct (computeScript_Ok_inv _ _ _ _ Hok) as [Hm Hc].
  rewrite computeScript_end in Hok; [|done|done]. by injection Hok as <-.
Qed.

(** No script unless the base commit is met. *)
Lemma computeScript_unmet commits toMove a :
  toMove ≠ [] → commits ≠ [] →
  Forall (λ c, ¬ meetsBase (shasOf toMove) (Some a) c) (reverse commits) →
  computeScript commits toMove (Some a) = Err AnchorNotFound.
Proof.
  intros Hm Hc Hl. rewrite computeScript_guarded; [|done|done].
  by rewrite traverse_before.
Qed.

(** A script for a given base commit: the log splits at the first
    iteration that meets it, and the script is what was written up to
    there, what the rest of the traversal writes, none of it a bystander,
    and the bystanders of the rest. *)
Lemma computeScript_onto commits toMove a script :
  computeScript commits toMove (Some a) = Ok script →
  ∃ l1 c l2 written,
    reverse commits = l1 ++ c :: l2 ∧
    Forall (λ c, ¬ meetsBase (shasOf toMove) (Some a) c) l1 ∧
    meetsBase (shasOf toMove) (Some a) c ∧
    written =
      (traverse (shasOf toMove) (Some a)
         {| foundBaseCommitInLog := true;
            toReplayBeforeBaseCommit := c :: filter (moved (shasOf toMove)) l1;
            toReplayAfterReorder := [] |} l2).2 ∧
    Forall (λ c, ¬ bystander (shasOf toMove) (Some a) c) written ∧
    script =
      filter (kept (shasOf toMove)) l1 ++
      (c :: filter (moved (shasOf toMove)) l1) ++
      written ++ filter (bystander (shasOf toMove) (Some a)) l2.
Proof.
  intros Hok. destruct (computeScript_Ok_inv _ _ _ _ Hok) as [Hm Hc].
  rewrite computeScript_guarded in Hok; [|done|done].
  destruct (first_meeting (shasOf toMove) (Some a) (reverse commits))
    as [Hl|(l1 & c & l2 & Hl & H1 & Hmeet)].
  { rewrite traverse_before in Hok; [|done|done]. done. }
  destruct (traverse_from_base _ _ l1 c l2 H1 Hmeet)
    as (Hwalk & Hf & Hpicks & Hheld).
  rewrite Hl, Hwalk, Hf, Hheld in Hok. injection Hok as <-.
  eexists l1, c, l2, _. repeat (split; [done|]). by flatten.
Qed.

(** With a base commit met exactly once the script is the five runs of
    the block structure. *)
Lemma computeScript_onto_once commits toMove a script :
  NoDup (sha <$> commits) →
  computeScript commits toMove (Some a) = Ok script →
  ∃ l1 c l2,
    reverse commits = l1 ++ c :: l2 ∧
    sha c = sha a ∧ (sha c ∉ shasOf toMove) ∧
    script =
      filter (kept (shasOf toMove)) l1 ++
      [c] ++ filter (moved (shasOf toMove)) l1 ++
      filter (moved (shasOf toMove)) l2 ++
      filter (kept (shasOf toMove)) l2.
Proof.
  intros Hnd Hok.
  destruct (computeScript_onto _ _ _ _ Hok)
    as (l1 & c & l2 & written & Hl & H1 & Hc & Hw & _ & Hs).
  exists l1, c, l2. split; [done|].
  assert (Forall (λ c, ¬ meetsBase (shasOf toMove) (Some a) c) l2) as H2.
  { apply (never_meets_again _ _ l1 l2 c); [|done].
    rewrite <- Hl, fmap_reverse. by rewrite reverse_Permutation. }
  rewrite traverse_after in Hw; [|done|done]. simpl in Hw.
  assert (filter (bystander (shasOf toMove) (Some a)) l2 =
          filter (kept (shasOf toMove)) l2) as Hby.
  { apply list_filter_iff_in. intros x Hx. split; [by intros [Hk _]|].
    intros Hk. split; [done|]. apply not_true_is_false. intros Hb.
    by apply (proj1 (Forall_forall _ _) H2 x Hx). }
  destruct Hc as [Hk Hb]. simpl in Hb. apply bool_decide_eq_true_1 in Hb.
  split; [done|]. split; [done|]. rewrite Hs, Hw, Hby. by flatten.
Qed.

(** ** Filtering the runs of a script *)

Lemma filter_moved_kept toMoveShas (l : list CommitOneLine) :
  filter (moved toMoveShas) (filter (kept toMoveShas) l) = [].
Proof.
  apply filter_none, Forall_forall.
  intros x [Hk _]%list_elem_of_filter Hm. by apply Hk.
Qed.

Lemma filter_moved_moved toMoveShas (l : list CommitOneLine) :
  filter (moved toMoveShas) (filter (moved toMoveShas) l) =
  filter (moved toMoveShas) l.
Proof. by apply list_filter_filter_l. Qed.

Lemma filter_bystander_kept toMoveShas afterCommit (l : list CommitOneLine) :
  filter (bystander toMoveShas afterCommit) (filter (kept toMoveShas) l) =
  filter (bystander toMoveShas afterCommit) l.
Proof. apply list_filter_filter_l. by intros x [Hk _]. Qed.

Lemma filter_bystander_moved toMoveShas afterCommit (l : list CommitOneLine) :
  filter (bystander toMoveShas afterCommit) (filter (moved toMoveShas) l) = [].
Proof.
  apply filter_none, Forall_forall.
  intros x [Hm _]%list_elem_of_filter [Hk _]. by apply Hk.
Qed.

Lemma filter_bystander_twice toMoveShas afterCommit (l : list CommitOneLine) :
  filter (bystander toMoveShas afterCommit)
    (filter (bystander toMoveShas afterCommit) l) =
  filter (bystander toMoveShas afterCommit) l.
Proof. by apply list_filter_filter_l. Qed.

(** The move set as a set: two lists with the same shas give the same
    set, and they are empty together. *)
Lemma shasOf_ext toMove1 toMove2 :
  (∀ h, h ∈ sha <$> toMove1 ↔ h ∈ sha <$> toMove2) →
  shasOf toMove1 = shasOf toMove2 ∧ (toMove1 = [] ↔ toMove2 = []).
Proof.
  intros Hs. split.
  - unfold shasOf. apply set_eq. intros h.
    by rewrite !elem_of_list_to_set.
  - destruct toMove1 as [|x l1], toMove2 as [|y l2]; try done.
    + exfalso. apply (not_elem_of_nil (sha y)). apply Hs. simpl. left.
    + exfalso. apply (not_elem_of_nil (sha x)). apply Hs. simpl. left.
Qed.

Lemma computeScript_ext commits toMove1 toMove2 afterCommit :
  (toMove1 = [] ↔ toMove2 = []) →
  (∀ c, c ∈ commits → sha c ∈ shasOf toMove1 ↔ sha c ∈ shasOf toMove2) →
  computeScript commits toMove1 afterCommit =
  computeScript commits toMove2 afterCommit.
Proof.
  intros He Hs. unfold computeScript.
  rewrite (bool_decide_ext (length toMove1 = 0) (length toMove2 = 0)).
  2:{ rewrite !length_zero_iff_nil. done. }
  rewrite (traverse_ext (shasOf toMove1) afterCommit (shasOf toMove2)); [done|].
  intros c Hc. apply Hs. by apply elem_of_reverse.
Qed.

(** Every entry of a script is an entry of the log. *)
Lemma computeScript_members commits toMove afterCommit script x :
  computeScript commits toMove afterCommit = Ok script →
  x ∈ script → x ∈ commits.
Proof.
  intros Hok Hx. destruct (computeScript_Ok_inv _ _ _ _ Hok) as [Hm Hc].
  rewrite computeScript_guarded in Hok; [|done|done].
  pose proof (traverse_members (shasOf toMove) afterCommit
                (reverse commits) start x) as Hin.
  destruct (traverse _ _ start _) as [st picks]. simpl in Hin.
  rewrite elem_of_reverse, !elem_of_nil in Hin.
  assert (x ∈ picks ∨ x ∈ toReplayBeforeBaseCommit st ∨
          x ∈ toReplayAfterReorder st) as Hcase.
  { destruct afterCommit.
    - destruct (foundBaseCommitInLog st); [|done].
      injection Hok as <-. apply elem_of_app in Hx. tauto.
    - injection Hok as <-. rewrite !elem_of_app in Hx. tauto. }
  tauto.
Qed.

(** A script is never empty. *)
Lemma computeScript_nonempty commits toMove afterCommit script :
  computeScript commits toMove afterCommit = Ok script → script ≠ [].
Proof.
  intros Hok. destruct (computeScript_Ok_inv _ _ _ _ Hok) as [Hm Hc].
  destruct afterCommit as [a|].
  - destruct (computeScript_onto _ _ _ _ Hok)
      as (l1 & c & l2 & written & _ & _ & _ & _ & _ & ->).
    simpl. by destruct (filter _ l1).
  - rewrite computeScript_end in Hok; [|done|done]. injection Hok as <-.
    intros Hnil. apply (f_equal length) in Hnil.
    rewrite (kept_moved_Permutation (shasOf toMove) (reverse commits)),
      length_reverse in Hnil.
    by destruct commits.
Qed.

(** When no script comes out of a guarded run, the base commit was given
    and never met. *)
Lemma computeScript_Err_inv commits toMove afterCommit e :
  toMove ≠ [] → commits ≠ [] →
  computeScript commits toMove afterCommit = Err e →
  e = AnchorNotFound ∧
  traverse (shasOf toMove) afterCommit start (reverse commits) =
    ({| foundBaseCommitInLog := false;
        toReplayBeforeBaseCommit :=
          filter (moved (shasOf toMove)) (reverse commits);
        toReplayAfterReorder := [] |},
     filter (kept (shasOf toMove)) (reverse commits)).
Proof.
  intros Hm Hc Herr. rewrite computeScript_guarded in Herr; [|done|done].
  destruct afterCommit as [a|].
  2:{ by destruct (traverse _ _ _ _). }
  destruct (first_meeting (shasOf toMove) (Some a) (reverse commits))
    as [Hl|(l1 & c & l2 & Hl & H1 & Hmeet)].
  - rewrite traverse_before in Herr |- *; [|done|done|done|done].
    simpl in Herr. by injection Herr as <-.
  - exfalso.
    destruct (traverse_from_base _ _ l1 c l2 H1 Hmeet) as (Hwalk & Hf & _).
    by rewrite Hl, Hwalk, Hf in Herr.
Qed.

(** ** Running [reorder] *)

Lemma append_nil_r (s : string) : s +:+ "" = s.
Proof.
  induction s as [|a s IH]; [done|].
  change (String a (s +:+ "") = String a s). by f_equal.
Qed.

Lemma append_assoc (s1 s2 s3 : string) :
  (s1 +:+ s2) +:+ s3 = s1 +:+ s2 +:+ s3.
Proof.
  induction s1 as [|a s1 IH]; [done|].
  change (String a ((s1 +:+ s2) +:+ s3) = String a (s1 +:+ s2 +:+ s3)).
  by f_equal.
Qed.

Section Run.
Context `{Collaborators}.

Lemma writes_app todoPath xs ys (w : World) :
  writes todoPath (xs ++ ys) w = writes todoPath ys (writes todoPath xs w).
Proof. unfold writes. by rewrite foldl_app. Qed.

(** The appends of a non-empty run leave the file with the text it had,
    followed by the run's lines. *)
Lemma writes_holding todoPath xs (w : World) :
  xs ≠ [] →
  writes todoPath xs w =
    holding todoPath (default "" (files w !! todoPath) +:+ render xs) w.
Proof.
  revert w. induction xs as [|x xs IH]; intros w Hne; [done|].
  destruct xs as [|y xs].
  - simpl. by rewrite append_nil_r.
  - change (writes todoPath (x :: y :: xs) w)
      with (writes todoPath (y :: xs) (write todoPath (pick_line x) w)).
    rewrite IH; [|done]. unfold holding, write. simpl.
    rewrite lookup_insert_eq, insert_insert_eq. simpl.
    by rewrite append_assoc.
Qed.

(** *** On a disk that takes the appends *)

Lemma appendPicks_run todoPath xs (w : World) :
  TakesAppends todoPath →
  appendPicks todoPath xs w = (Ok (), writes todoPath xs w).
Proof.
  intros Hdisk. revert w. induction xs as [|x xs IH]; intros w; [done|].
  simpl. unfold bind. by rewrite Hdisk, IH.
Qed.

(** [if (toReplayAfterReorder.length > 0)] around the loop changes
    nothing. *)
Lemma appendPicks_guarded todoPath xs (w : World) :
  TakesAppends todoPath →
  (if bool_decide (0 < length xs) then appendPicks todoPath xs else ret ()) w =
    (Ok (), writes todoPath xs w).
Proof.
  intros Hdisk. case_bool_decide as Hlen; [by apply appendPicks_run|].
  destruct xs; [done|simpl in Hlen; lia].
Qed.

(** One iteration over the world is one iteration of the scheduler, with
    its picks appended to the file. *)
Lemma visitM_run todoPath toMoveShas afterCommit st commit (w : World) :
  TakesAppends todoPath →
  visitM todoPath toMoveShas afterCommit st commit w =
    (Ok (visit toMoveShas afterCommit st commit).1,
     writes todoPath (visit toMoveShas afterCommit st commit).2 w).
Proof.
  intros Hdisk. unfold visitM, visit.
  case_bool_decide.
  { destruct (foundBaseCommitInLog st); [|done]. unfold bind.
    by rewrite Hdisk. }
  destruct (isBaseCommit afterCommit commit).
  - unfold bind. by rewrite appendPicks_run.
  - destruct (foundBaseCommitInLog st); [done|]. unfold bind.
    by rewrite Hdisk.
Qed.

Lemma traverseM_run todoPath toMoveShas afterCommit st log (w : World) :
  TakesAppends todoPath →
  traverseM todoPath toMoveShas afterCommit st log w =
    (Ok (traverse toMoveShas afterCommit st log).1,
     writes todoPath (traverse toMoveShas afterCommit st log).2 w).
Proof.
  intros Hdisk. revert st w.
  induction log as [|c log IH]; intros st w; [done|].
  simpl. unfold bind. rewrite visitM_run, IH; [|done].
  destruct (visit toMoveShas afterCommit st c) as [st1 picks]. simpl.
  destruct (traverse toMoveShas afterCommit st1 log) as [st2 more].
  simpl. by rewrite writes_app.
Qed.

(** Lines 65-141 on such a disk: the file ends with the rendered script,
    or the block is left with [AnchorNotFound] after every kept commit was
    written. *)
Lemma writeTodo_run toMove afterCommit commits todoPath (w : World) :
  TakesAppends todoPath →
  toMove ≠ [] → commits ≠ [] →
  writeTodo afterCommit (shasOf toMove) commits todoPath w =
    match computeScript commits toMove afterCommit with
    | Ok script =>
        (Ok (),
         holding todoPath
           (default "" (files w !! todoPath) +:+ render script) w)
    | Err e =>
        (Err (Thrown e),
         writes todoPath (filter (kept (shasOf toMove)) (reverse commits)) w)
    end.
Proof.
  intros Hdisk Hm Hc.
  destruct (computeScript commits toMove afterCommit) as [script|e] eqn:Hcs.
  - pose proof (computeScript_nonempty _ _ _ _ Hcs) as Hne.
    rewrite computeScript_guarded in Hcs; [|done|done].
    unfold writeTodo, bind. rewrite traverseM_run; [|done].
    destruct (traverse _ _ start _) as [st picks]. simpl.
    rewrite appendPicks_guarded; [|done]. destruct afterCommit as [a|].
    + destruct (foundBaseCommitInLog st); [|done]. injection Hcs as <-.
      unfold ret. by rewrite <- writes_app, writes_holding.
    + injection Hcs as <-. rewrite appendPicks_run; [|done].
      by rewrite <- !writes_app, (assoc_L (++)), writes_holding.
  - destruct (computeScript_Err_inv _ _ _ _ Hm Hc Hcs) as [-> Ht].
    unfold writeTodo, bind. rewrite traverseM_run, Ht; [|done]. simpl.
    destruct afterCommit as [a|]; [done|].
    by rewrite computeScript_end in Hcs.
Qed.

(** *** On any disk *)

(** Whatever the disk does, an iteration that is not left by a rejection
    leaves the locals of the scheduler. *)
Lemma visitM_locals todoPath toMoveShas afterCommit st commit (w : World)
    st' w' :
  visitM todoPath toMoveShas afterCommit st commit w = (Ok st', w') →
  st' = (visit toMoveShas afterCommit st commit).1.
Proof.
  unfold visitM, visit, bind, ret.
  repeat (case_bool_decide || case_match); simpl; congruence.
Qed.

Lemma traverseM_locals todoPath toMoveShas afterCommit st log (w : World)
    st' w' :
  traverseM todoPath toMoveShas afterCommit st log w = (Ok st', w') →
  st' = (traverse toMoveShas afterCommit st log).1.
Proof.
  revert st w. induction log as [|c log IH]; intros st w; simpl.
  - unfold ret. congruence.
  - unfold bind.
    destruct (visitM _ _ _ st c w) as [[st1|e] w1] eqn:Hv; [|done].
    apply visitM_locals in Hv. intros Ht%IH. subst st1 st'.
    destruct (visit toMoveShas afterCommit st c) as [st1 picks]. simpl.
    by destruct (traverse toMoveShas afterCommit st1 log).
Qed.

(** Without a script, lines 65-141 are left by an error whatever the disk
    does: a rejected append, or the missing base commit. *)
Lemma writeTodo_fails toMove afterCommit commits todoPath (w : World) e0 :
  toMove ≠ [] → commits ≠ [] →
  computeScript commits toMove afterCommit = Err e0 →
  ∃ e w', writeTodo afterCommit (shasOf toMove) commits todoPath w = (Err e, w').
Proof.
  intros Hm Hc Hcs.
  destruct (computeScript_Err_inv _ _ _ _ Hm Hc Hcs) as [-> Ht].
  destruct afterCommit as [a|]; [|by rewrite computeScript_end in Hcs].
  unfold writeTodo, bind.
  destruct (traverseM _ _ _ start _ w) as [[st|e] w'] eqn:Hrun; [|by eauto].
  apply traverseM_locals in Hrun. rewrite Ht in Hrun. subst st. simpl.
  unfold ret, throw. by eauto.
Qed.

(** The call from the assignment of [todoPath] on, by the outcome of the
    writing of the todo file. *)
Lemma reorder_from_todo repository toMove afterCommit lastRetainedCommitRef
    progressCallback (w : World) commits w1 todoPath w2 :
  toMove ≠ [] →
  getCommits repository (logRange lastRetainedCommitRef) w = (Ok commits, w1) →
  commits ≠ [] →
  getTempFilePath "reorderTodo" w1 = (Ok todoPath, w2) →
  tryBlock repository toMove afterCommit lastRetainedCommitRef
    progressCallback w =
    (Some todoPath,
     (replay repository afterCommit lastRetainedCommitRef progressCallback
        (shasOf toMove) commits todoPath w2).1,
     (replay repository afterCommit lastRetainedCommitRef progressCallback
        (shasOf toMove) commits todoPath w2).2).
Proof.
  intros Hm Hlog Hc Hpath. unfold tryBlock, acquire.
  rewrite bool_decide_eq_false_2; [|by destruct toMove].
  unfold bind at 1. rewrite Hlog.
  rewrite bool_decide_eq_false_2; [|by destruct commits].
  unfold bind at 1. rewrite Hpath. unfold ret at 1.
  by destruct (replay _ _ _ _ _ _ _ w2).
Qed.

Lemma reorder_todo_fails repository toMove afterCommit lastRetainedCommitRef
    progressCallback (w : World) commits w1 todoPath w2 e w' :
  toMove ≠ [] →
  getCommits repository (logRange lastRetainedCommitRef) w = (Ok commits, w1) →
  commits ≠ [] →
  getTempFilePath "reorderTodo" w1 = (Ok todoPath, w2) →
  writeTodo afterCommit (shasOf toMove) commits todoPath w2 = (Err e, w') →
  tryBlock repository toMove afterCommit lastRetainedCommitRef
    progressCallback w = (Some todoPath, Err e, w') ∧
  reorder repository toMove afterCommit lastRetainedCommitRef
    progressCallback w =
    (RebaseResult_Error, startRemove todoPath (log_error e w')).
Proof.
  intros Hm Hlog Hc Hpath Hw.
  assert (tryBlock repository toMove afterCommit lastRetainedCommitRef
            progressCallback w = (Some todoPath, Err e, w')) as Htry.
  { rewrite (reorder_from_todo _ _ _ _ _ _ _ _ _ _ Hm Hlog Hc Hpath).
    unfold replay, bind. by rewrite Hw. }
  split; [done|]. unfold reorder. by rewrite Htry.
Qed.

(** The whole of [reorder] once the log is there and the todo path is
    assigned, on a disk that takes the appends. *)
Lemma reorder_run repository toMove afterCommit lastRetainedCommitRef
    progressCallback (w : World) commits w1 todoPath w2 :
  TakesAppends todoPath →
  toMove ≠ [] →
  getCommits repository (logRange lastRetainedCommitRef) w = (Ok commits, w1) →
  commits ≠ [] →
  getTempFilePath "reorderTodo" w1 = (Ok todoPath, w2) →
  reorder repository toMove afterCommit lastRetainedCommitRef
    progressCallback w =
    match computeScript commits toMove afterCommit with
    | Ok script =>
        let text := default "" (files w2 !! todoPath) +:+ render script in
        match readFile todoPath (holding todoPath text w2) with
        | (Ok read, w3) =>
            match
              rebaseInteractive repository todoPath lastRetainedCommitRef
                Squash None progressCallback commits (printed read w3)
            with
            | (Ok result, w4) => (result, startRemove todoPath w4)
            | (Err e, w4) =>
                (RebaseResult_Error, startRemove todoPath (log_error e w4))
            end
        | (Err e, w3) =>
            (RebaseResult_Error, startRemove todoPath (log_error e w3))
        end
    | Err e =>
        (RebaseResult_Error,
         startRemove todoPath
           (log_error (Thrown e)
              (writes todoPath
                 (filter (kept (shasOf toMove)) (reverse commits)) w2)))
    end.
Proof.
  intros Hdisk Hm Hlog Hc Hpath. unfold reorder.
  rewrite (reorder_from_todo _ _ _ _ _ _ _ _ _ _ Hm Hlog Hc Hpath).
  unfold replay, bind. rewrite writeTodo_run; [|done|done|done].
  destruct (computeScript commits toMove afterCommit) as [script|e]; [|done].
  simpl. destruct (readFile todoPath _) as [[read|e] w3]; [|done].
  unfold console_log.
  by destruct (rebaseInteractive _ _ _ _ _ _ _ _) as [[result|e] w4].
Qed.

(** The [finally] block by itself: whenever the [try] block is left with
    [todoPath] assigned, by a result, by an error of [reorder] or by a
    rejection, the removal of that path is started on the world the [try]
    and [catch] blocks left, and that is all: the disk is as they left
    it. *)
Lemma finally_starts_removal repository toMove afterCommit
    lastRetainedCommitRef progressCallback (w : World) todoPath :
  (tryBlock repository toMove afterCommit lastRetainedCommitRef
     progressCallback w).1.1 = Some todoPath →
  ∃ left,
    (reorder repository toMove afterCommit lastRetainedCommitRef
       progressCallback w).2 = startRemove todoPath left ∧
    left =
      match (tryBlock repository toMove afterCommit lastRetainedCommitRef
               progressCallback w).1.2 with
      | Ok _ =>
          (tryBlock repository toMove afterCommit lastRetainedCommitRef
             progressCallback w).2
      | Err e =>
          log_error e
            (tryBlock repository toMove afterCommit lastRetainedCommitRef
               progressCallback w).2
      end.
Proof.
  unfold reorder.
  destruct (tryBlock _ _ _ _ _ w) as [[path r] w1]. simpl. intros ->.
  destruct r as [result|e]; simpl; by eexists.
Qed.

(** The exits before the todo path is assigned. *)
Lemma reorder_nothing_to_move repository afterCommit lastRetainedCommitRef
    progressCallback (w : World) :
  reorder repository [] afterCommit lastRetainedCommitRef progressCallback w =
    (RebaseResult_Error, log_error (Thrown EmptyMoveSet) w).
Proof. done. Qed.

Lemma reorder_empty_log repository toMove afterCommit lastRetainedCommitRef
    progressCallback (w w1 : World) :
  toMove ≠ [] →
  getCommits repository (logRange lastRetainedCommitRef) w = (Ok [], w1) →
  reorder repository toMove afterCommit lastRetainedCommitRef
    progressCallback w =
    (RebaseResult_Error, log_error (Thrown EmptyLog) w1).
Proof.
  intros Hm Hlog. unfold reorder, tryBlock, acquire.
  rewrite bool_decide_eq_false_2; [|by destruct toMove].
  unfold bind at 1. by rewrite Hlog.
Qed.

End Run.

(** ** The scenarios *)

Example squash_onto_C :
  computeScript Scenarios.history Scenarios.ontoC (Some Scenarios.C) =
    Ok Scenarios.ontoC_script.
Proof. vm_compute. reflexivity. Qed.

Example move_to_end :
  computeScript Scenarios.history Scenarios.toEnd None =
    Ok Scenarios.toEnd_script.
Proof. vm_compute. reflexivity. Qed.

Example move_everything :
  computeScript Scenarios.history Scenarios.history None =
    Ok (reverse Scenarios.history).
Proof. vm_compute. reflexivity. Qed.

Example anchor_elsewhere :
  computeScript Scenarios.history Scenarios.toEnd (Some Scenarios.Z) =
    Err AnchorNotFound.
Proof. vm_compute. reflexivity. Qed.

(** The base commit of the script is the entry of the log, whatever
    summary the caller's copy carries. *)
Example base_commit_from_the_log :
  computeScript Scenarios.history Scenarios.ontoC
    (Some {| sha := "c3"; summary := "stale" |}) =
    Ok Scenarios.ontoC_script.
Proof. vm_compute. reflexivity. Qed.

(** A log that repeats the sha of the base commit writes the held commits
    once more: the invariant of the log is needed for the shape of the
    script. *)
Example repeated_base_commit :
  computeScript [Scenarios.C; Scenarios.C; Scenarios.A] [Scenarios.A]
    (Some Scenarios.C) =
    Ok [Scenarios.C; Scenarios.A; Scenarios.C; Scenarios.C; Scenarios.A].
Proof. vm_compute. reflexivity. Qed.

(** The whole call: the engine reads the rendered script, the text is
    printed, and the removal of the todo file is started. *)
Example reorder_squash_onto_C :
  @reorder Scenarios.platform Scenarios.desk () Scenarios.ontoC
    (Some Scenarios.C) (Some "main") None (Scenarios.world Scenarios.history) =
    (Scenarios.Completed,
     Scenarios.worldWith
       {[ "/tmp/desktop-1/reorderTodo" := render Scenarios.ontoC_script ]}
       [] [render Scenarios.ontoC_script] ["/tmp/desktop-1/reorderTodo"]
       Scenarios.history [render Scenarios.ontoC_script]).
Proof. vm_compute. reflexivity. Qed.

(** On a disk that takes no append the first append sends the call to the
    [catch] block. *)
Example reorder_on_a_full_disk :
  @reorder Scenarios.platform Outages.fullDisk () Scenarios.ontoC
    (Some Scenarios.C) (Some "main") None (Scenarios.world Scenarios.history) =
    (Scenarios.Failed,
     Scenarios.worldWith ∅ [Rejected "ENOSPC"] []
       ["/tmp/desktop-1/reorderTodo"] Scenarios.history []).
Proof. vm_compute. reflexivity. Qed.

(** * The claims *)

(** ** The script *)

(** C1 (conservation).  For a log without a repeated sha (the invariant of
    a commit log), whenever [computeScript] gives a script, the shas of the
    script are the shas of the log up to order, each as often, and the
    script is as long as the log. *)
Theorem conservation commits toMove afterCommit script :
  NoDup (sha <$> commits) →
  computeScript commits toMove afterCommit = Ok script →
  sha <$> script ≡ₚ sha <$> reverse commits ∧
  length script = length commits.
Proof.
  intros Hnd Hok.
  assert (script ≡ₚ reverse commits) as Hp.
  { destruct afterCommit as [a|].
    - destruct (computeScript_onto_once _ _ _ _ Hnd Hok)
        as (l1 & c & l2 & -> & _ & _ & ->).
      rewrite <- (kept_moved_Permutation (shasOf toMove) l1) at 3.
      rewrite <- (kept_moved_Permutation (shasOf toMove) l2) at 3.
      rewrite <- (assoc_L (++)). f_equiv. simpl.
      rewrite <- Permutation_middle. do 2 f_equiv.
      apply Permutation_app_comm.
    - destruct (computeScript_Ok_inv _ _ _ _ Hok) as [Hm Hc].
      rewrite computeScript_end in Hok; [|done|done]. injection Hok as <-.
      apply kept_moved_Permutation. }
  split; [by rewrite Hp|].
  by rewrite Hp, length_reverse.
Qed.

Lemma conservation_witness :
  sha <$> Scenarios.ontoC_script ≡ₚ sha <$> reverse Scenarios.history ∧
  length Scenarios.ontoC_script = length Scenarios.history.
Proof.
  apply (conservation Scenarios.history Scenarios.ontoC (Some Scenarios.C)).
  - apply (bool_decide_unpack _). vm_compute. exact I.
  - vm_compute. reflexivity.
Defined.

(** C2 (anchored block).  For a log without a repeated sha and a base
    commit [a], a script has this shape: the log, oldest first, splits
    around the one entry [base] with the sha of [a]; the script is the kept
    entries from before [base] in log order, then [base], then the moved
    entries from before [base] in log order, then the moved entries from
    after [base] in log order, then the kept entries from after [base] in
    log order; [base] itself is not moved. *)
Theorem anchored_block commits toMove a script :
  NoDup (sha <$> commits) →
  computeScript commits toMove (Some a) = Ok script →
  ∃ before base after,
    reverse commits = before ++ base :: after ∧
    sha base = sha a ∧ kept (shasOf toMove) base ∧
    script =
      filter (kept (shasOf toMove)) before ++
      (base :: filter (moved (shasOf toMove)) before ++
               filter (moved (shasOf toMove)) after) ++
      filter (kept (shasOf toMove)) after.
Proof.
  intros Hnd Hok.
  destruct (computeScript_onto_once _ _ _ _ Hnd Hok)
    as (l1 & c & l2 & Hl & Hc & Hk & ->).
  exists l1, c, l2. split; [done|]. split; [done|]. split; [done|].
  simpl. by flatten.
Qed.

Lemma anchored_block_witness :
  ∃ before base after,
    reverse Scenarios.history = before ++ base :: after ∧
    sha base = sha Scenarios.C ∧ kept (shasOf Scenarios.ontoC) base ∧
    Scenarios.ontoC_script =
      filter (kept (shasOf Scenarios.ontoC)) before ++
      (base :: filter (moved (shasOf Scenarios.ontoC)) before ++
               filter (moved (shasOf Scenarios.ontoC)) after) ++
      filter (kept (shasOf Scenarios.ontoC)) after.
Proof.
  apply (anchored_block Scenarios.history Scenarios.ontoC Scenarios.C).
  - apply (bool_decide_unpack _). vm_compute. exact I.
  - vm_compute. reflexivity.
Defined.

(** C3 (tail placement).  Without a base commit, a script is the kept
    entries of the log in log order followed by the moved entries of the
    log in log order: the moved entries are the last run of the script. *)
Theorem tail_placement commits toMove script :
  computeScript commits toMove None = Ok script →
  script =
    filter (kept (shasOf toMove)) (reverse commits) ++
    filter (moved (shasOf toMove)) (reverse commits).
Proof.
  intros Hok. destruct (computeScript_Ok_inv _ _ _ _ Hok) as [Hm Hc].
  rewrite computeScript_guarded in Hok; [|done|done].
  rewrite traverse_before in Hok; [|done|apply never_meets_None].
  simpl in Hok. injection Hok as <-. by flatten.
Qed.

Lemma tail_placement_witness :
  Scenarios.toEnd_script =
    filter (kept (shasOf Scenarios.toEnd)) (reverse Scenarios.history) ++
    filter (moved (shasOf Scenarios.toEnd)) (reverse Scenarios.history).
Proof.
  apply (tail_placement Scenarios.history Scenarios.toEnd).
  vm_compute. reflexivity.
Defined.

(** C4 (order of the bystanders).  Whenever [computeScript] gives a script,
    the entries that are neither moved nor the base commit come in the
    script in the order they have in the log, oldest first. *)
Theorem non_mover_order commits toMove afterCommit script :
  computeScript commits toMove afterCommit = Ok script →
  filter (bystander (shasOf toMove) afterCommit) script =
  filter (bystander (shasOf toMove) afterCommit) (reverse commits).
Proof.
  intros Hok. destruct afterCommit as [a|].
  - destruct (computeScript_onto _ _ _ _ Hok)
      as (l1 & c & l2 & written & -> & H1 & Hc & _ & Hpicks & ->).
    assert (¬ bystander (shasOf toMove) (Some a) c) as Hn.
    { intros [_ Hx]. destruct Hc. congruence. }
    rewrite !filter_app, !filter_cons_False; [|done|done].
    rewrite filter_bystander_kept, filter_bystander_moved.
    rewrite (filter_none _ _ Hpicks), filter_bystander_twice.
    by flatten.
  - rewrite (computeScript_end_inv _ _ _ Hok).
    rewrite filter_app, filter_bystander_kept, filter_bystander_moved.
    by flatten.
Qed.

Lemma non_mover_order_witness :
  filter (bystander (shasOf Scenarios.ontoC) (Some Scenarios.C))
    Scenarios.ontoC_script =
  filter (bystander (shasOf Scenarios.ontoC) (Some Scenarios.C))
    (reverse Scenarios.history).
Proof.
  apply (non_mover_order Scenarios.history Scenarios.ontoC (Some Scenarios.C)).
  vm_compute. reflexivity.
Defined.

(** C5 (the order of the move list does not matter).  Two lists of commits
    to move with the same shas, in whatever order and however often, give
    the same result; and in a script for a log without a repeated sha the
    moved entries come in the order they have in the log, oldest first. *)
Theorem move_set_order_independence commits toMove1 toMove2 afterCommit :
  (∀ h, h ∈ sha <$> toMove1 ↔ h ∈ sha <$> toMove2) →
  computeScript commits toMove1 afterCommit =
  computeScript commits toMove2 afterCommit ∧
  ∀ script,
    NoDup (sha <$> commits) →
    computeScript commits toMove1 afterCommit = Ok script →
    filter (moved (shasOf toMove1)) script =
    filter (moved (shasOf toMove1)) (reverse commits).
Proof.
  intros Hs. destruct (shasOf_ext _ _ Hs) as [Heq Hnil]. split.
  - apply computeScript_ext; [done|]. intros c _. by rewrite Heq.
  - intros script Hnd Hok. destruct afterCommit as [a|].
    + destruct (computeScript_onto_once _ _ _ _ Hnd Hok)
        as (l1 & c & l2 & -> & _ & Hc & ->).
      rewrite !filter_app, !filter_cons_False, filter_nil; [|done|done].
      rewrite !filter_moved_kept, !filter_moved_moved. by flatten.
    + rewrite (computeScript_end_inv _ _ _ Hok).
      rewrite filter_app, filter_moved_kept, filter_moved_moved. by flatten.
Qed.

Lemma move_set_order_independence_witness :
  computeScript Scenarios.history Scenarios.ontoC (Some Scenarios.C) =
  computeScript Scenarios.history
    (Scenarios.A :: Scenarios.E :: Scenarios.ontoC) (Some Scenarios.C) ∧
  filter (moved (shasOf Scenarios.ontoC)) Scenarios.ontoC_script =
  filter (moved (shasOf Scenarios.ontoC)) (reverse Scenarios.history).
Proof.
  destruct (move_set_order_independence Scenarios.history Scenarios.ontoC
              (Scenarios.A :: Scenarios.E :: Scenarios.ontoC)
              (Some Scenarios.C)) as [Hsame Horder].
  - intros h. simpl. rewrite !elem_of_cons. tauto.
  - split; [exact Hsame|]. apply Horder.
    + apply (bool_decide_unpack _). vm_compute. exact I.
    + vm_compute. reflexivity.
Defined.

(** C9 (a base commit that is itself to be moved).  When the base commit's
    sha is among the shas to move, the traversal of a log that is not
    empty, and so of every log that holds that sha, ends with the flag
    still down and the result is [AnchorNotFound]: there is no script. *)
Theorem anchor_in_move_set commits toMove a :
  sha a ∈ sha <$> toMove →
  commits ≠ [] →
  foundBaseCommitInLog
    (traverse (shasOf toMove) (Some a) start (reverse commits)).1 = false ∧
  computeScript commits toMove (Some a) = Err AnchorNotFound.
Proof.
  intros Hm Hc.
  assert (Forall (λ c, ¬ meetsBase (shasOf toMove) (Some a) c)
            (reverse commits)) as Hl.
  { apply never_meets_moved. unfold shasOf. by apply elem_of_list_to_set. }
  split.
  - by rewrite traverse_before.
  - apply computeScript_unmet; [|done|done].
    intros ->. by apply not_elem_of_nil in Hm.
Qed.

Lemma anchor_in_move_set_witness :
  foundBaseCommitInLog
    (traverse (shasOf Scenarios.ontoC) (Some Scenarios.A) start
       (reverse Scenarios.history)).1 = false ∧
  computeScript Scenarios.history Scenarios.ontoC (Some Scenarios.A) =
    Err AnchorNotFound.
Proof.
  apply (anchor_in_move_set Scenarios.history Scenarios.ontoC Scenarios.A).
  - apply (bool_decide_unpack _). vm_compute. exact I.
  - discriminate.
Defined.

(** C10, as stated, fails on an empty move list: adding a sha that is not
    in the log turns [EmptyMoveSet] into a script. *)
Lemma absent_hash_changes_empty_move_set :
  (sha Scenarios.Z ∉ sha <$> Scenarios.history) ∧
  computeScript Scenarios.history [] None = Err EmptyMoveSet ∧
  computeScript Scenarios.history [Scenarios.Z] None =
    Ok (reverse Scenarios.history) ∧
  computeScript Scenarios.history ([] ++ [Scenarios.Z]) None ≠
  computeScript Scenarios.history [] None.
Proof.
  split; [|split; [|split]].
  - apply (bool_decide_unpack _). vm_compute. exact I.
  - vm_compute. reflexivity.
  - vm_compute. reflexivity.
  - vm_compute. discriminate.
Qed.

(** C10 (amended).  For a move list that is not empty, adding a sha that
    does not occur in the log changes nothing: the result is the same,
    failure or script, and the added sha is not in the script. *)
Theorem absent_hash_ignored commits toMove toMove' afterCommit h :
  toMove ≠ [] →
  h ∉ sha <$> commits →
  (∀ x, x ∈ sha <$> toMove' ↔ x = h ∨ x ∈ sha <$> toMove) →
  computeScript commits toMove' afterCommit =
  computeScript commits toMove afterCommit ∧
  ∀ script,
    computeScript commits toMove' afterCommit = Ok script →
    h ∉ sha <$> script.
Proof.
  intros Hm Hh Hs. split.
  - apply computeScript_ext.
    + split; [|done]. intros ->. exfalso.
      destruct toMove as [|x l]; [done|].
      apply (not_elem_of_nil (sha x)). apply Hs. right. simpl. left.
    + intros c Hc. unfold shasOf. rewrite !elem_of_list_to_set, Hs.
      split; [|tauto]. intros [Heq|?]; [|done].
      exfalso. apply Hh. rewrite <- Heq. by apply list_elem_of_fmap_2.
  - intros script Hok (x & -> & Hx)%list_elem_of_fmap.
    apply Hh, list_elem_of_fmap_2.
    by apply (computeScript_members _ _ _ _ _ Hok).
Qed.

Lemma absent_hash_ignored_witness :
  computeScript Scenarios.history (Scenarios.Z :: Scenarios.ontoC)
    (Some Scenarios.C) =
  computeScript Scenarios.history Scenarios.ontoC (Some Scenarios.C) ∧
  sha Scenarios.Z ∉ sha <$> Scenarios.ontoC_script.
Proof.
  destruct (absent_hash_ignored Scenarios.history Scenarios.ontoC
              (Scenarios.Z :: Scenarios.ontoC) (Some Scenarios.C)
              (sha Scenarios.Z)) as [Hsame Habsent].
  - discriminate.
  - apply (bool_decide_unpack _). vm_compute. exact I.
  - intros x. simpl. rewrite !elem_of_cons. tauto.
  - split; [exact Hsame|]. apply Habsent. vm_compute. reflexivity.
Defined.

(** ** The exits of [reorder] *)

(** C6 (base commit missing from the log).  With commits to move, a log
    that is not empty and a base commit whose sha is not in it, there is no
    script: the result is [AnchorNotFound].  In [reorder], whatever the
    disk does, the writing of the todo file is left by an error, so the
    file is never read or printed and the engine never runs; that error is
    logged, [reorder] answers [RebaseResult.Error] and the removal of the
    todo file is started.  On a disk that takes the appends the traversal
    runs to its end, with every kept commit written to the todo file, and
    the error is [AnchorNotFound]. *)
Theorem anchor_missing `{Collaborators} repository toMove a
    lastRetainedCommitRef progressCallback (w : World) commits w1 todoPath w2 :
  toMove ≠ [] →
  commits ≠ [] →
  sha a ∉ sha <$> commits →
  getCommits repository (logRange lastRetainedCommitRef) w = (Ok commits, w1) →
  getTempFilePath "reorderTodo" w1 = (Ok todoPath, w2) →
  computeScript commits toMove (Some a) = Err AnchorNotFound ∧
  (∃ e w',
     writeTodo (Some a) (shasOf toMove) commits todoPath w2 = (Err e, w') ∧
     tryBlock repository toMove (Some a) lastRetainedCommitRef
       progressCallback w = (Some todoPath, Err e, w') ∧
     reorder repository toMove (Some a) lastRetainedCommitRef
       progressCallback w =
       (RebaseResult_Error, startRemove todoPath (log_error e w'))) ∧
  (TakesAppends todoPath →
   writeTodo (Some a) (shasOf toMove) commits todoPath w2 =
     (Err (Thrown AnchorNotFound),
      writes todoPath (filter (kept (shasOf toMove)) (reverse commits)) w2)).
Proof.
  intros Hm Hc Ha Hlog Hpath.
  assert (computeScript commits toMove (Some a) = Err AnchorNotFound) as Hcs.
  { apply computeScript_unmet; [done|done|].
    apply never_meets_absent. by rewrite fmap_reverse, elem_of_reverse. }
  split; [done|]. split.
  - destruct (writeTodo_fails toMove (Some a) commits todoPath w2 _ Hm Hc Hcs)
      as (e & w' & Hw).
    exists e, w'. split; [done|].
    by apply (reorder_todo_fails _ _ _ _ _ _ commits w1 todoPath w2).
  - intros Hdisk. rewrite writeTodo_run; [|done|done|done]. by rewrite Hcs.
Qed.

Lemma anchor_missing_witness :
  computeScript Scenarios.history Scenarios.ontoC (Some Scenarios.Z) =
    Err AnchorNotFound ∧
  @reorder Scenarios.platform Scenarios.desk () Scenarios.ontoC
    (Some Scenarios.Z) (Some "main") None (Scenarios.world Scenarios.history) =
    (Scenarios.Failed,
     Scenarios.worldWith
       {[ "/tmp/desktop-1/reorderTodo" :=
            render [Scenarios.B; Scenarios.C; Scenarios.D] ]}
       [Thrown AnchorNotFound] [] ["/tmp/desktop-1/reorderTodo"]
       Scenarios.history []).
Proof.
  destruct (@anchor_missing Scenarios.platform Scenarios.desk ()
              Scenarios.ontoC Scenarios.Z (Some "main") None
              (Scenarios.world Scenarios.history) Scenarios.history
              (Scenarios.world Scenarios.history)
              "/tmp/desktop-1/reorderTodo"
              (Scenarios.world Scenarios.history))
    as (Hpure & (e & w' & Hwrite & _ & Hrun) & Hdisk).
  - discriminate.
  - discriminate.
  - apply (bool_decide_unpack _). vm_compute. exact I.
  - reflexivity.
  - reflexivity.
  - split; [exact Hpure|].
    rewrite Hdisk in Hwrite; [|done]. injection Hwrite as <- <-.
    rewrite Hrun. vm_compute. reflexivity.
Defined.

(** C7, as stated, fails when the move list and the log are both empty:
    the move list is looked at first, and the result is [EmptyMoveSet],
    not [EmptyLog]. *)
Lemma empty_log_with_empty_move_set :
  computeScript [] [] None = Err EmptyMoveSet ∧
  computeScript [] [] None ≠ Err EmptyLog.
Proof. split; [vm_compute; reflexivity|vm_compute; discriminate]. Qed.

(** C7 (amended).  An empty move list gives [EmptyMoveSet] whatever the
    log, and with commits to move an empty log gives [EmptyLog].  In
    [reorder] the first guard throws before the log is asked for and the
    second right after the log has come, before a todo path is asked for:
    all that remains of the call is the logged error. *)
Theorem precondition_failures `{Collaborators} repository commits toMove
    afterCommit lastRetainedCommitRef progressCallback (w w1 : World) :
  computeScript commits [] afterCommit = Err EmptyMoveSet ∧
  reorder repository [] afterCommit lastRetainedCommitRef progressCallback w =
    (RebaseResult_Error, log_error (Thrown EmptyMoveSet) w) ∧
  (toMove ≠ [] →
   computeScript [] toMove afterCommit = Err EmptyLog ∧
   (getCommits repository (logRange lastRetainedCommitRef) w = (Ok [], w1) →
    reorder repository toMove afterCommit lastRetainedCommitRef
      progressCallback w =
      (RebaseResult_Error, log_error (Thrown EmptyLog) w1))).
Proof.
  split; [done|]. split; [apply reorder_nothing_to_move|].
  intros Hm. split.
  - unfold computeScript. by rewrite bool_decide_eq_false_2; [|by destruct toMove].
  - by apply reorder_empty_log.
Qed.

Lemma precondition_failures_witness :
  computeScript [] Scenarios.ontoC None = Err EmptyLog ∧
  @reorder Scenarios.platform Scenarios.desk () Scenarios.ontoC None None None
    (Scenarios.world []) =
    (Scenarios.Failed,
     @log_error Scenarios.platform (Thrown EmptyLog) (Scenarios.world [])).
Proof.
  destruct (@precondition_failures Scenarios.platform Scenarios.desk ()
              Scenarios.history Scenarios.ontoC None None None
              (Scenarios.world []) (Scenarios.world [])) as (_ & _ & Hlog).
  destruct (Hlog ltac:(discriminate)) as [Hpure Hrun].
  split; [exact Hpure|]. apply Hrun. reflexivity.
Defined.

(** C8 (the todo file at the return of [reorder]).  Squashing [A] and [E]
    onto [C] with a disk and an engine that work: [reorder] answers what the
    engine answered, and in the world it returns the todo file is still on
    the disk, holding the script; its removal has only been started, by the
    one call of the [finally] block that nobody awaits. *)
Theorem todo_file_at_return :
  @reorder Scenarios.platform Scenarios.desk () Scenarios.ontoC
    (Some Scenarios.C) (Some "main") None (Scenarios.world Scenarios.history) =
    (Scenarios.Completed,
     @startRemove Scenarios.platform "/tmp/desktop-1/reorderTodo"
       (Scenarios.worldOf
          {[ "/tmp/desktop-1/reorderTodo" := render Scenarios.ontoC_script ]}
          [] [render Scenarios.ontoC_script] Scenarios.history
          [render Scenarios.ontoC_script])) ∧
  files
    (@reorder Scenarios.platform Scenarios.desk () Scenarios.ontoC
       (Some Scenarios.C) (Some "main") None
       (Scenarios.world Scenarios.history)).2
    !! "/tmp/desktop-1/reorderTodo" = Some (render Scenarios.ontoC_script).
Proof. split; vm_compute; reflexivity. Qed.

(** * Further properties of [reorder] *)

(** ** More on the traversal *)

(** Once the base commit is met, every commit that is moved or has the
    base's sha is written during the traversal. *)
Lemma traverse_writes toMoveShas afterCommit l st x :
  foundBaseCommitInLog st = true →
  x ∈ l →
  ¬ bystander toMoveShas afterCommit x →
  x ∈ (traverse toMoveShas afterCommit st l).2.
Proof.
  revert st. induction l as [|c l IH]; intros st Hf Hx Hn.
  - by apply elem_of_nil in Hx.
  - simpl. unfold visit. rewrite Hf.
    apply elem_of_cons in Hx as [->|Hx].
    + case_bool_decide as Hm.
      * destruct (traverse _ _ st l) as [st2 more]. simpl. left.
      * destruct (isBaseCommit afterCommit c) eqn:Hb.
        -- destruct (traverse _ _ _ l) as [st2 more]. simpl. left.
        -- exfalso. apply Hn. by split.
    + case_bool_decide as Hm.
      * specialize (IH st Hf Hx Hn).
        destruct (traverse _ _ st l) as [st2 more]. simpl in *. by right.
      * destruct (isBaseCommit afterCommit c) eqn:Hb.
        -- specialize (IH {| foundBaseCommitInLog := true;
                             toReplayBeforeBaseCommit :=
                               c :: toReplayBeforeBaseCommit st;
                             toReplayAfterReorder :=
                               toReplayAfterReorder st |} eq_refl Hx Hn).
           destruct (traverse _ _ _ l) as [st2 more]. simpl in *.
           right. apply elem_of_app. by right.
        -- specialize (IH {| foundBaseCommitInLog := true;
                             toReplayBeforeBaseCommit :=
                               toReplayBeforeBaseCommit st;
                             toReplayAfterReorder :=
                               toReplayAfterReorder st ++ [c] |}
                         eq_refl Hx Hn).
           by destruct (traverse _ _ _ l) as [st2 more].
Qed.

(** The traversal looks at the base commit only through its sha. *)
Lemma traverse_base_sha toMoveShas a a' l st :
  sha a = sha a' →
  traverse toMoveShas (Some a) st l = traverse toMoveShas (Some a') st l.
Proof.
  intros Ha. revert st. induction l as [|c l IH]; intros st; [done|].
  simpl. unfold visit, isBaseCommit. rewrite Ha.
  destruct (if bool_decide (sha c ∈ toMoveShas) then _ else _) as [st1 picks].
  by rewrite IH.
Qed.

(** A script for a base commit comes out exactly when the base commit is
    met. *)
Lemma computeScript_met commits toMove a c :
  toMove ≠ [] →
  c ∈ commits →
  meetsBase (shasOf toMove) (Some a) c →
  ∃ script, computeScript commits toMove (Some a) = Ok script.
Proof.
  intros Hm Hc Hmeet.
  assert (commits ≠ []) as Hne by (intros ->; by apply elem_of_nil in Hc).
  rewrite computeScript_guarded; [|done|done].
  destruct (first_meeting (shasOf toMove) (Some a) (reverse commits))
    as [Hl|(l1 & c' & l2 & Hl & H1 & Hmeet')].
  { exfalso. apply (proj1 (Forall_forall _ _) Hl c); [|done].
    by apply elem_of_reverse. }
  destruct (traverse_from_base _ _ l1 c' l2 H1 Hmeet') as (Hwalk & Hf & _).
  rewrite Hl, Hwalk, Hf. by eexists.
Qed.

Lemma filter_all {A} (P : A → Prop) `{!∀ x, Decision (P x)} (l : list A) :
  Forall P l → filter P l = l.
Proof.
  induction 1 as [|x l Hx _ IH]; [done|].
  by rewrite filter_cons_True, IH.
Qed.

Lemma filter_kept_moved toMoveShas (l : list CommitOneLine) :
  filter (kept toMoveShas) (filter (moved toMoveShas) l) = [].
Proof.
  apply filter_none, Forall_forall.
  intros x [Hm _]%list_elem_of_filter Hk. by apply Hk.
Qed.

Lemma filter_kept_kept toMoveShas (l : list CommitOneLine) :
  filter (kept toMoveShas) (filter (kept toMoveShas) l) =
  filter (kept toMoveShas) l.
Proof. by apply list_filter_filter_l. Qed.

(** The base commit is met in a log exactly when its sha is in the log and
    not among the shas to move. *)
Lemma meetsBase_in_log (commits toMove : list CommitOneLine) a :
  (∃ c, c ∈ commits ∧ meetsBase (shasOf toMove) (Some a) c) ↔
  sha a ∈ sha <$> commits ∧ (sha a ∉ sha <$> toMove).
Proof.
  unfold meetsBase, shasOf. simpl. split.
  - intros (c & Hc & Hk & Hb). apply bool_decide_eq_true_1 in Hb.
    rewrite elem_of_list_to_set, Hb in Hk. split; [|done].
    rewrite <- Hb. by apply list_elem_of_fmap_2.
  - intros [(c & Hb & Hc)%list_elem_of_fmap Hk]. exists c.
    split; [done|]. rewrite elem_of_list_to_set, <- Hb.
    split; [done|]. by apply bool_decide_eq_true_2.
Qed.

Lemma computeScript_Some_cases commits toMove a :
  toMove ≠ [] → commits ≠ [] →
  (sha a ∈ sha <$> commits ∧ (sha a ∉ sha <$> toMove) ∧
   ∃ script, computeScript commits toMove (Some a) = Ok script) ∨
  (¬ (sha a ∈ sha <$> commits ∧ (sha a ∉ sha <$> toMove)) ∧
   computeScript commits toMove (Some a) = Err AnchorNotFound).
Proof.
  intros Hm Hc.
  destruct (decide (sha a ∈ sha <$> commits ∧ (sha a ∉ sha <$> toMove)))
    as [Hmet|Hmet].
  - left. destruct Hmet as [H1 H2]. split; [done|]. split; [done|].
    destruct (proj2 (meetsBase_in_log commits toMove a) (conj H1 H2))
      as (c & Hin & Hmeet).
    by apply (computeScript_met commits toMove a c).
  - right. split; [done|]. apply computeScript_unmet; [done|done|].
    apply Forall_forall. intros c Hin Hmeet. apply Hmet.
    apply meetsBase_in_log. exists c. split; [|done].
    by apply elem_of_reverse.
Qed.

(** ** When there is a script, and what it holds *)

(** X1.  [computeScript] gives a script exactly when there are commits to
    move, the log is not empty and, if a base commit is given, its sha is
    in the log and not among the shas to move. *)
Theorem script_exactly_when commits toMove afterCommit :
  (∃ script, computeScript commits toMove afterCommit = Ok script) ↔
  toMove ≠ [] ∧ commits ≠ [] ∧
  match afterCommit with
  | None => True
  | Some a => sha a ∈ sha <$> commits ∧ (sha a ∉ sha <$> toMove)
  end.
Proof.
  split.
  - intros [script Hok].
    destruct (computeScript_Ok_inv _ _ _ _ Hok) as [Hm Hc].
    split; [done|]. split; [done|]. destruct afterCommit as [a|]; [|done].
    destruct (computeScript_Some_cases commits toMove a Hm Hc)
      as [(H1 & H2 & _)|[_ Herr]]; [done|congruence].
  - intros (Hm & Hc & Ha). destruct afterCommit as [a|].
    + destruct (computeScript_Some_cases commits toMove a Hm Hc)
        as [(_ & _ & Hok)|[Hn _]]; [done|by destruct Hn].
    + eexists. by apply computeScript_end.
Qed.

(** X2.  Which error comes out when: [EmptyMoveSet] exactly for an empty
    move list; [EmptyLog] exactly for commits to move and an empty log;
    [AnchorNotFound] exactly for commits to move, a log that is not empty
    and a base commit whose sha is either not in the log or among the shas
    to move. *)
Theorem error_exactly_when commits toMove afterCommit :
  (computeScript commits toMove afterCommit = Err EmptyMoveSet ↔
   toMove = []) ∧
  (computeScript commits toMove afterCommit = Err EmptyLog ↔
   toMove ≠ [] ∧ commits = []) ∧
  (computeScript commits toMove afterCommit = Err AnchorNotFound ↔
   toMove ≠ [] ∧ commits ≠ [] ∧
   ∃ a, afterCommit = Some a ∧
        ¬ (sha a ∈ sha <$> commits ∧ (sha a ∉ sha <$> toMove))).
Proof.
  destruct toMove as [|m toMove].
  { split; [done|]. split; (split; [done|]); by intros [? _]. }
  destruct commits as [|c commits].
  { split; [done|]. split; [done|]. split; [done|]. by intros (_ & ? & _). }
  assert (m :: toMove ≠ []) as Hm by done.
  assert (c :: commits ≠ []) as Hc by done.
  destruct afterCommit as [a|].
  - destruct (computeScript_Some_cases _ _ a Hm Hc)
      as [(H1 & H2 & script & Hok)|[Hn Herr]].
    + rewrite Hok. split; [done|]. split; [split; [done|by intros [_ ?]]|].
      split; [done|]. intros (_ & _ & a' & Heq & Hn).
      injection Heq as <-. by destruct Hn.
    + rewrite Herr. split; [done|]. split; [split; [done|by intros [_ ?]]|].
      split; [|done]. intros _. split; [done|]. split; [done|]. by exists a.
  - rewrite (computeScript_end _ _ Hm Hc). split; [done|].
    split; [split; [done|by intros [_ ?]]|].
    split; [done|]. by intros (_ & _ & a & ? & _).
Qed.

(** X3.  Whatever the log, a script holds every commit of the log and
    nothing else. *)
Theorem script_holds_the_log commits toMove afterCommit script :
  computeScript commits toMove afterCommit = Ok script →
  ∀ x, x ∈ script ↔ x ∈ commits.
Proof.
  intros Hok x. split; [by apply (computeScript_members _ _ _ _ _ Hok)|].
  intros Hx%elem_of_reverse. destruct afterCommit as [a|].
  - destruct (computeScript_onto _ _ _ _ Hok)
      as (l1 & c & l2 & written & Hl & H1 & Hc & Hw & _ & ->).
    rewrite Hl in Hx. rewrite !elem_of_app, elem_of_cons.
    rewrite !list_elem_of_filter.
    apply elem_of_app in Hx as [Hx|[->|Hx]%elem_of_cons].
    + destruct (decide (moved (shasOf toMove) x)); [right; left; by right|].
      by left.
    + right. left. by left.
    + right. right.
      destruct (decide (bystander (shasOf toMove) (Some a) x)) as [Hb|Hb];
        [by right|].
      left. rewrite Hw. by apply traverse_writes.
  - rewrite (computeScript_end_inv _ _ _ Hok), elem_of_app.
    rewrite !list_elem_of_filter.
    destruct (decide (moved (shasOf toMove) x)); [by right|by left].
Qed.

Lemma script_holds_the_log_witness :
  Scenarios.D ∈ Scenarios.ontoC_script ↔ Scenarios.D ∈ Scenarios.history.
Proof.
  apply (script_holds_the_log Scenarios.history Scenarios.ontoC
           (Some Scenarios.C) Scenarios.ontoC_script).
  vm_compute. reflexivity.
Defined.

(** X4.  The base commit counts by its sha alone: two values with the same
    sha, whatever their summaries, give the same result. *)
Theorem base_commit_by_sha commits toMove a a' :
  sha a = sha a' →
  computeScript commits toMove (Some a) =
  computeScript commits toMove (Some a').
Proof.
  intros Ha. unfold computeScript.
  by rewrite (traverse_base_sha _ a a' _ _ Ha).
Qed.

Lemma base_commit_by_sha_witness :
  computeScript Scenarios.history Scenarios.ontoC (Some Scenarios.C) =
  computeScript Scenarios.history Scenarios.ontoC
    (Some {| sha := "c3"; summary := "stale" |}).
Proof.
  apply (base_commit_by_sha Scenarios.history Scenarios.ontoC Scenarios.C
           {| sha := "c3"; summary := "stale" |}).
  reflexivity.
Defined.

(** X5.  The oldest commits of the log, as long as they are neither moved
    nor the base commit, open the script unchanged. *)
Theorem untouched_prefix commits toMove afterCommit script prefix rest :
  computeScript commits toMove afterCommit = Ok script →
  reverse commits = prefix ++ rest →
  Forall (bystander (shasOf toMove) afterCommit) prefix →
  ∃ tail, script = prefix ++ tail.
Proof.
  intros Hok Hl Hp. destruct (computeScript_Ok_inv _ _ _ _ Hok) as [Hm Hc].
  rewrite computeScript_guarded in Hok; [|done|done].
  rewrite Hl, traverse_app, traverse_before in Hok; [|done|].
  2:{ eapply Forall_impl; [exact Hp|]. intros x [_ Hb] [_ Hb']. congruence. }
  rewrite (filter_all (kept _)), (filter_none (moved _)) in Hok.
  2:{ eapply Forall_impl; [exact Hp|]. intros x [Hk _] Hx. by apply Hk. }
  2:{ eapply Forall_impl; [exact Hp|]. by intros x [Hk _]. }
  simpl in Hok. destruct (traverse _ _ _ rest) as [st2 more].
  destruct afterCommit as [a|].
  - destruct (foundBaseCommitInLog st2); [|done]. injection Hok as <-.
    eexists. by rewrite <- !(assoc_L (++)).
  - injection Hok as <-. eexists. by rewrite <- !(assoc_L (++)).
Qed.

Lemma untouched_prefix_witness :
  ∃ tail, Scenarios.ontoC_script = [Scenarios.B] ++ tail.
Proof.
  apply (untouched_prefix
           [Scenarios.E; Scenarios.D; Scenarios.C; Scenarios.A; Scenarios.B]
           [Scenarios.E; Scenarios.A] (Some Scenarios.C) Scenarios.ontoC_script
           [Scenarios.B]
           [Scenarios.A; Scenarios.C; Scenarios.D; Scenarios.E]).
  - vm_compute. reflexivity.
  - reflexivity.
  - constructor; [|constructor].
    apply (bool_decide_unpack _). vm_compute. exact I.
Defined.

(** In a log without a repeated sha no other entry has the sha of a given
    entry. *)
Lemma NoDup_sha_apart (l1 l2 : list CommitOneLine) c x :
  NoDup (sha <$> l1 ++ c :: l2) → x ∈ l1 ++ l2 → sha x ≠ sha c.
Proof.
  rewrite fmap_app, fmap_cons. intros Hnd Hx Heq.
  apply NoDup_app in Hnd as (_ & Hapart & Hnd).
  apply NoDup_cons in Hnd as [Hc _].
  apply elem_of_app in Hx as [Hx|Hx].
  - apply (Hapart (sha x)); [by apply list_elem_of_fmap_2|].
    rewrite Heq. left.
  - apply Hc. rewrite <- Heq. by apply list_elem_of_fmap_2.
Qed.

(** ** Running the scheduler on its own script, and moves that change
    nothing *)

(** X6.  A script is stable: for a log without a repeated sha, reordering
    the script itself, taken as the log, with the same move list and base
    commit gives the script again. *)
Theorem script_is_stable commits toMove afterCommit script :
  NoDup (sha <$> commits) →
  computeScript commits toMove afterCommit = Ok script →
  computeScript (reverse script) toMove afterCommit = Ok script.
Proof.
  intros Hnd Hok.
  destruct (computeScript_Ok_inv _ _ _ _ Hok) as [Hm Hc].
  pose proof (computeScript_nonempty _ _ _ _ Hok) as Hne.
  assert (reverse script ≠ []) as Hne'.
  { intros Hr. apply Hne. by rewrite <- (reverse_involutive script), Hr. }
  destruct afterCommit as [a|].
  - destruct (computeScript_onto_once _ _ _ _ Hnd Hok)
      as (l1 & c & l2 & Hl & Hc' & Hk & Hs).
    assert (NoDup (sha <$> l1 ++ c :: l2)) as Hnd'.
    { rewrite <- Hl, fmap_reverse. by rewrite reverse_Permutation. }
    assert (∀ x, x ∈ l1 ++ l2 → ¬ meetsBase (shasOf toMove) (Some a) x)
      as Hapart.
    { intros x Hx [_ Hb]. simpl in Hb. apply bool_decide_eq_true_1 in Hb.
      apply (NoDup_sha_apart l1 l2 c x Hnd' Hx). congruence. }
    assert (meetsBase (shasOf toMove) (Some a) c) as Hmeet.
    { split; [done|]. by apply bool_decide_eq_true_2. }
    rewrite computeScript_guarded, reverse_involutive; [|done|done].
    rewrite Hs at 1.
    destruct (traverse_from_base (shasOf toMove) (Some a)
                (filter (kept (shasOf toMove)) l1) c
                (filter (moved (shasOf toMove)) l1 ++
                 filter (moved (shasOf toMove)) l2 ++
                 filter (kept (shasOf toMove)) l2)) as (Hwalk & _).
    { apply Forall_forall. intros x [_ Hx]%list_elem_of_filter.
      apply Hapart, elem_of_app. by left. }
    { done. }
    change ([c] ++ ?l) with (c :: l). rewrite Hwalk.
    rewrite traverse_after; [|done|].
    2:{ apply Forall_forall. intros x Hx. apply Hapart.
        rewrite !elem_of_app, !list_elem_of_filter in Hx.
        apply elem_of_app. tauto. }
    simpl. rewrite !filter_app.
    rewrite filter_kept_kept, !filter_moved_kept, !filter_moved_moved.
    rewrite !filter_kept_moved, filter_kept_kept.
    rewrite Hs. f_equal. by flatten.
  - rewrite (computeScript_end_inv _ _ _ Hok) at 1.
    rewrite computeScript_end, reverse_involutive; [|done|].
    2:{ by rewrite <- (computeScript_end_inv _ _ _ Hok). }
    rewrite !filter_app.
    rewrite filter_kept_kept, filter_moved_kept, filter_moved_moved.
    rewrite filter_kept_moved.
    rewrite (computeScript_end_inv _ _ _ Hok). f_equal. by flatten.
Qed.

Lemma script_is_stable_witness :
  computeScript (reverse Scenarios.ontoC_script) Scenarios.ontoC
    (Some Scenarios.C) = Ok Scenarios.ontoC_script.
Proof.
  apply (script_is_stable Scenarios.history Scenarios.ontoC
           (Some Scenarios.C)).
  - apply (bool_decide_unpack _). vm_compute. exact I.
  - vm_compute. reflexivity.
Defined.

(** X7.  When no commit of the log is among the commits to move, the
    script of a log without a repeated sha is the log itself, oldest
    first. *)
Theorem nothing_in_the_log_to_move commits toMove afterCommit script :
  NoDup (sha <$> commits) →
  (∀ c, c ∈ commits → sha c ∉ sha <$> toMove) →
  computeScript commits toMove afterCommit = Ok script →
  script = reverse commits.
Proof.
  intros Hnd Hkept Hok.
  assert (∀ l, (∀ x, x ∈ l → x ∈ reverse commits) →
               filter (kept (shasOf toMove)) l = l ∧
               filter (moved (shasOf toMove)) l = []) as Hfilters.
  { intros l Hl.
    assert (Forall (kept (shasOf toMove)) l) as Hall.
    { apply Forall_forall. intros x Hx. unfold kept, shasOf.
      rewrite elem_of_list_to_set. by apply Hkept, elem_of_reverse, Hl. }
    split; [by apply filter_all|]. apply filter_none.
    eapply Forall_impl; [exact Hall|]. intros x Hk Hx. by apply Hk. }
  destruct afterCommit as [a|].
  - destruct (computeScript_onto_once _ _ _ _ Hnd Hok)
      as (l1 & c & l2 & Hl & _ & _ & ->).
    destruct (Hfilters l1) as [-> ->].
    { intros x Hx. rewrite Hl. apply elem_of_app. by left. }
    destruct (Hfilters l2) as [-> ->].
    { intros x Hx. rewrite Hl. apply elem_of_app. right. by right. }
    by rewrite Hl.
  - rewrite (computeScript_end_inv _ _ _ Hok).
    destruct (Hfilters (reverse commits)) as [-> ->]; [done|]. by flatten.
Qed.

Lemma nothing_in_the_log_to_move_witness :
  [Scenarios.A; Scenarios.B; Scenarios.C; Scenarios.D; Scenarios.E] =
  reverse Scenarios.history.
Proof.
  apply (nothing_in_the_log_to_move Scenarios.history [Scenarios.Z]
           (Some Scenarios.C)).
  - apply (bool_decide_unpack _). vm_compute. exact I.
  - intros c Hc. revert c Hc. apply Forall_forall.
    apply (bool_decide_unpack _). vm_compute. exact I.
  - vm_compute. reflexivity.
Defined.

(** X8.  Without a base commit, when every commit of the log is among the
    commits to move, the script is the log itself, oldest first. *)
Theorem whole_log_to_the_end commits toMove script :
  (∀ c, c ∈ commits → sha c ∈ sha <$> toMove) →
  computeScript commits toMove None = Ok script →
  script = reverse commits.
Proof.
  intros Hmoved Hok. rewrite (computeScript_end_inv _ _ _ Hok).
  assert (Forall (moved (shasOf toMove)) (reverse commits)) as Hall.
  { apply Forall_forall. intros x Hx. unfold moved, shasOf.
    rewrite elem_of_list_to_set. by apply Hmoved, elem_of_reverse. }
  rewrite (filter_all (moved _)); [|done].
  rewrite (filter_none (kept _)); [done|].
  eapply Forall_impl; [exact Hall|]. intros x Hx Hk. by apply Hk.
Qed.

Lemma whole_log_to_the_end_witness :
  [Scenarios.A; Scenarios.B; Scenarios.C; Scenarios.D; Scenarios.E] =
  reverse Scenarios.history.
Proof.
  apply (whole_log_to_the_end Scenarios.history Scenarios.history).
  - intros c Hc. by apply list_elem_of_fmap_2.
  - vm_compute. reflexivity.
Defined.

(** ** The exits of [reorder] through the collaborators *)

(** X9.  When the script is computed, the disk takes the appends and
    gives back the text of the todo file, and the engine answers, [reorder]
    answers what the engine answered.  The engine is run on the log as it
    came, with the todo file holding the text it had, if any, followed by
    the rendered script, after that text was printed; what is left is the
    world of the engine with the removal of the todo file started, and
    [reorder] logs no error. *)
Theorem engine_answer `{Collaborators} repository toMove afterCommit
    lastRetainedCommitRef progressCallback (w : World) commits w1 todoPath w2
    script result w3 :
  getCommits repository (logRange lastRetainedCommitRef) w = (Ok commits, w1) →
  getTempFilePath "reorderTodo" w1 = (Ok todoPath, w2) →
  computeScript commits toMove afterCommit = Ok script →
  TakesAppends todoPath →
  readFile todoPath
    (holding todoPath
       (default "" (files w2 !! todoPath) +:+ render script) w2) =
    (Ok (default "" (files w2 !! todoPath) +:+ render script),
     holding todoPath
       (default "" (files w2 !! todoPath) +:+ render script) w2) →
  rebaseInteractive repository todoPath lastRetainedCommitRef Squash None
    progressCallback commits
    (printed (default "" (files w2 !! todoPath) +:+ render script)
       (holding todoPath
          (default "" (files w2 !! todoPath) +:+ render script) w2)) =
    (Ok result, w3) →
  reorder repository toMove afterCommit lastRetainedCommitRef
    progressCallback w = (result, startRemove todoPath w3).
Proof.
  intros Hlog Hpath Hok Hdisk Hread Hengine.
  destruct (computeScript_Ok_inv _ _ _ _ Hok) as [Hm Hc].
  rewrite (reorder_run _ _ _ _ _ _ _ _ _ _ Hdisk Hm Hlog Hc Hpath), Hok.
  simpl. by rewrite Hread, Hengine.
Qed.

Lemma engine_answer_witness :
  @reorder Scenarios.platform Scenarios.desk () Scenarios.ontoC
    (Some Scenarios.C) (Some "main") None (Scenarios.world Scenarios.history) =
    (Scenarios.Completed,
     @startRemove Scenarios.platform "/tmp/desktop-1/reorderTodo"
       (Scenarios.worldOf
          {[ "/tmp/desktop-1/reorderTodo" := render Scenarios.ontoC_script ]}
          [] [render Scenarios.ontoC_script] Scenarios.history
          [render Scenarios.ontoC_script])).
Proof.
  apply (@engine_answer Scenarios.platform Scenarios.desk () Scenarios.ontoC
           (Some Scenarios.C) (Some "main") None
           (Scenarios.world Scenarios.history) Scenarios.history
           (Scenarios.world Scenarios.history) "/tmp/desktop-1/reorderTodo"
           (Scenarios.world Scenarios.history) Scenarios.ontoC_script).
  - reflexivity.
  - reflexivity.
  - vm_compute. reflexivity.
  - intros data w. reflexivity.
  - vm_compute. reflexivity.
  - vm_compute. reflexivity.
Defined.

(** X10.  When the script is computed, the disk takes the appends and
    gives back the text of the todo file, and the engine rejects, [reorder]
    answers [RebaseResult.Error]; the rejection is logged in the world the
    engine left and the removal of the todo file is started. *)
Theorem engine_rejection `{Collaborators} repository toMove afterCommit
    lastRetainedCommitRef progressCallback (w : World) commits w1 todoPath w2
    script e w3 :
  getCommits repository (logRange lastRetainedCommitRef) w = (Ok commits, w1) →
  getTempFilePath "reorderTodo" w1 = (Ok todoPath, w2) →
  computeScript commits toMove afterCommit = Ok script →
  TakesAppends todoPath →
  readFile todoPath
    (holding todoPath
       (default "" (files w2 !! todoPath) +:+ render script) w2) =
    (Ok (default "" (files w2 !! todoPath) +:+ render script),
     holding todoPath
       (default "" (files w2 !! todoPath) +:+ render script) w2) →
  rebaseInteractive repository todoPath lastRetainedCommitRef Squash None
    progressCallback commits
    (printed (default "" (files w2 !! todoPath) +:+ render script)
       (holding todoPath
          (default "" (files w2 !! todoPath) +:+ render script) w2)) =
    (Err e, w3) →
  reorder repository toMove afterCommit lastRetainedCommitRef
    progressCallback w =
    (RebaseResult_Error, startRemove todoPath (log_error e w3)).
Proof.
  intros Hlog Hpath Hok Hdisk Hread Hengine.
  destruct (computeScript_Ok_inv _ _ _ _ Hok) as [Hm Hc].
  rewrite (reorder_run _ _ _ _ _ _ _ _ _ _ Hdisk Hm Hlog Hc Hpath), Hok.
  simpl. by rewrite Hread, Hengine.
Qed.

Lemma engine_rejection_witness :
  @reorder Scenarios.platform Outages.brokenEngine () Scenarios.ontoC
    (Some Scenarios.C) (Some "main") None (Scenarios.world Scenarios.history) =
    (Scenarios.Failed,
     @startRemove Scenarios.platform "/tmp/desktop-1/reorderTodo"
       (@log_error Scenarios.platform (Rejected "git rebase failed")
          (Scenarios.worldOf
             {[ "/tmp/desktop-1/reorderTodo" :=
                  render Scenarios.ontoC_script ]}
             [] [render Scenarios.ontoC_script] Scenarios.history
             [render Scenarios.ontoC_script]))).
Proof.
  apply (@engine_rejection Scenarios.platform Outages.brokenEngine ()
           Scenarios.ontoC (Some Scenarios.C) (Some "main") None
           (Scenarios.world Scenarios.history) Scenarios.history
           (Scenarios.world Scenarios.history) "/tmp/desktop-1/reorderTodo"
           (Scenarios.world Scenarios.history) Scenarios.ontoC_script).
  - reflexivity.
  - reflexivity.
  - vm_compute. reflexivity.
  - intros data w. reflexivity.
  - vm_compute. reflexivity.
  - vm_compute. reflexivity.
Defined.

(** X11.  With commits to move, a rejection by the log provider, or by the
    path provider after a log that is not empty, makes [reorder] answer
    [RebaseResult.Error]: the rejection is logged in the world the
    collaborator left, no file is written or removed, and the engine does
    not run. *)
Theorem provider_rejection `{Collaborators} repository toMove afterCommit
    lastRetainedCommitRef progressCallback (w : World) :
  toMove ≠ [] →
  (∀ e w1,
     getCommits repository (logRange lastRetainedCommitRef) w = (Err e, w1) →
     reorder repository toMove afterCommit lastRetainedCommitRef
       progressCallback w = (RebaseResult_Error, log_error e w1)) ∧
  (∀ commits w1 e w2,
     getCommits repository (logRange lastRetainedCommitRef) w =
       (Ok commits, w1) →
     commits ≠ [] →
     getTempFilePath "reorderTodo" w1 = (Err e, w2) →
     reorder repository toMove afterCommit lastRetainedCommitRef
       progressCallback w = (RebaseResult_Error, log_error e w2)).
Proof.
  intros Hm. split.
  - intros e w1 Hlog. unfold reorder, tryBlock, acquire.
    rewrite bool_decide_eq_false_2; [|by destruct toMove].
    unfold bind at 1. by rewrite Hlog.
  - intros commits w1 e w2 Hlog Hc Hpath. unfold reorder, tryBlock, acquire.
    rewrite bool_decide_eq_false_2; [|by destruct toMove].
    unfold bind at 1. rewrite Hlog.
    rewrite bool_decide_eq_false_2; [|by destruct commits].
    unfold bind at 1. by rewrite Hpath.
Qed.

Lemma provider_rejection_witness :
  @reorder Scenarios.platform Outages.offline () Scenarios.ontoC
    (Some Scenarios.C) (Some "main") None (Scenarios.world Scenarios.history) =
    (Scenarios.Failed,
     @log_error Scenarios.platform (Rejected "git log failed")
       (Scenarios.world Scenarios.history)) ∧
  @reorder Scenarios.platform Outages.noTemp () Scenarios.ontoC
    (Some Scenarios.C) (Some "main") None (Scenarios.world Scenarios.history) =
    (Scenarios.Failed,
     @log_error Scenarios.platform (Rejected "mkdtemp failed")
       (Scenarios.world Scenarios.history)).
Proof.
  split.
  - apply (@provider_rejection Scenarios.platform Outages.offline ()
             Scenarios.ontoC (Some Scenarios.C) (Some "main") None
             (Scenarios.world Scenarios.history)); [discriminate|].
    reflexivity.
  - apply (proj2 (@provider_rejection Scenarios.platform Outages.noTemp ()
             Scenarios.ontoC (Some Scenarios.C) (Some "main") None
             (Scenarios.world Scenarios.history) ltac:(discriminate))
             Scenarios.history (Scenarios.world Scenarios.history)).
    + reflexivity.
    + discriminate.
    + reflexivity.
Defined.

(** X12.  The append loops call [appendFile] once per commit, in the
    order of the list, each time with the pick line of the commit: when
    every append to the todo path goes through, the file holds the text it
    had, if any, followed by these lines in order; an empty list changes
    nothing, and nothing but the file at that path changes.  When an append
    is rejected, the loop is left at once by that rejection. *)
Theorem appended_text `{Collaborators} todoPath xs (w : World) :
  (TakesAppends todoPath →
   ∃ w',
     appendPicks todoPath xs w = (Ok (), w') ∧
     (xs = [] → w' = w) ∧
     (xs ≠ [] →
      files w' !! todoPath =
        Some (default "" (files w !! todoPath) +:+ render xs)) ∧
     (∀ path, path ≠ todoPath → files w' !! path = files w !! path) ∧
     errorLog w' = errorLog w ∧ console w' = console w ∧
     removals w' = removals w ∧ outside w' = outside w) ∧
  (∀ x rest e w',
     xs = x :: rest →
     appendFile todoPath (pick_line x) w = (Err e, w') →
     appendPicks todoPath xs w = (Err e, w')).
Proof.
  split.
  - intros Hdisk. exists (writes todoPath xs w).
    split; [by apply appendPicks_run|].
    split; [by intros ->|].
    destruct xs as [|x xs]; [by repeat split|].
    rewrite writes_holding; [|done]. unfold holding. simpl.
    split; [intros _; apply lookup_insert_eq|].
    split; [|done]. intros path Hp. by apply lookup_insert_ne.
  - intros x rest e w' -> Hreject. simpl. unfold bind. by rewrite Hreject.
Qed.

Lemma appended_text_witness :
  ∃ w',
    @appendPicks Scenarios.platform Scenarios.desk
      "/tmp/desktop-1/reorderTodo" Scenarios.ontoC_script
      (Scenarios.world Scenarios.history) = (Ok (), w') ∧
    files w' !! "/tmp/desktop-1/reorderTodo" =
      Some (render Scenarios.ontoC_script).
Proof.
  destruct (proj1 (@appended_text Scenarios.platform Scenarios.desk
                     "/tmp/desktop-1/reorderTodo" Scenarios.ontoC_script
                     (Scenarios.world Scenarios.history)))
    as (w' & Hrun & _ & Htext & _).
  - intros data w. reflexivity.
  - exists w'. split; [exact Hrun|]. apply Htext. discriminate.
Defined.

(** ** What the loop leaves behind *)

(** X13.  After the traversal of any log: the flag is up exactly when some
    commit of the log has the sha of the base commit and is not to be
    moved; the commits held for the end are all neither moved nor the base
    commit; and while the flag is down nothing is held for the end, the
    commits held for the base commit are the moved commits of the log in
    log order, and the commits written are the others in log order. *)
Theorem traversal_ends toMoveShas afterCommit (l : list CommitOneLine) :
  let ended := traverse toMoveShas afterCommit start l in
  (foundBaseCommitInLog ended.1 = true ↔
   ∃ c, c ∈ l ∧ meetsBase toMoveShas afterCommit c) ∧
  Forall (bystander toMoveShas afterCommit) (toReplayAfterReorder ended.1) ∧
  (foundBaseCommitInLog ended.1 = false →
   toReplayAfterReorder ended.1 = [] ∧
   toReplayBeforeBaseCommit ended.1 = filter (moved toMoveShas) l ∧
   ended.2 = filter (kept toMoveShas) l).
Proof.
  intros ended. subst ended.
  destruct (first_meeting toMoveShas afterCommit l)
    as [Hl|(l1 & c & l2 & -> & H1 & Hmeet)].
  - rewrite traverse_before; [|done|done]. simpl. split; [|done].
    split; [done|]. intros (c & Hc & Hmeet). exfalso.
    by apply (proj1 (Forall_forall _ _) Hl c).
  - destruct (traverse_from_base _ _ l1 c l2 H1 Hmeet)
      as (-> & Hf & _ & Hheld).
    simpl. rewrite Hf, Hheld. split; [|split; [|done]].
    + split; [|done]. intros _. exists c. split; [|done].
      apply elem_of_app. right. left.
    + apply Forall_forall. by intros x [Hx _]%list_elem_of_filter.
Qed.
